(** * ecpglib/memory.c: the per-thread list of automatically allocated memory

    A shallow embedding of [src/interfaces/ecpg/ecpglib/memory.c] and the
    properties of its auto-memory registry.

    Modelling conventions.
    - A pointer is its address, an integer of type [Z]; [NULL] is [0].
    - [struct auto_mem] is a record of two pointer-sized words.  The first
      word is the anonymous union: read as [pointer] it is the whole word,
      read as the one-bit field [auto_clear_disabled] it is bit 0 of the same
      word (bit fields are allocated from the least significant bit on the
      little-endian ABIs ecpglib is built for).
    - The memory of the model holds the live blocks handed out by [calloc],
      viewed through [struct auto_mem *].  What [calloc] answers is decided
      by the C library, not by this file: every function that allocates takes
      the answer as an argument ([0] for a failed allocation).
    - [ecpg_raise], [ecpg_log] and [free] are recorded, in order, in a trace.
    - Code runs in a state monad with one failure, [Fault]: an access
      through [NULL] or through a pointer to a block that is not live.  The
      two [do ... while] loops run under a bound, one more than the number of
      live blocks; [Exhausted] is the outcome of reaching it, which never
      happens ([ECPGfree_auto_mem_total], [ecpg_clear_auto_mem_total]). *)

From Stdlib Require Import ZArith String List Lia.
From stdpp Require Import base option list gmap.

Open Scope Z_scope.

(** ** Data model *)

(** [struct auto_mem]: [word] is the storage shared by the members of the
    anonymous union, [next] the link. *)
Record auto_mem : Type := { word : Z; next : Z }.

(** [am->pointer] *)
Definition pointer (am : auto_mem) : Z := word am.

(** [am->auto_clear_disabled] *)
Definition auto_clear_disabled (am : auto_mem) : bool := Z.testbit (word am) 0.

(** [am->pointer = ptr] *)
Definition set_pointer (ptr : Z) (am : auto_mem) : auto_mem :=
  {| word := ptr; next := next am |}.

(** [am->next = nx] *)
Definition set_next (nx : Z) (am : auto_mem) : auto_mem :=
  {| word := word am; next := nx |}.

(** [am->auto_clear_disabled = v]: only bit 0 of the union changes. *)
Definition set_auto_clear_disabled (v : bool) (am : auto_mem) : auto_mem :=
  {| word := if v then Z.setbit (word am) 0 else Z.clearbit (word am) 0;
     next := next am |}.

(** A block as [calloc] hands it out: all bits zero. *)
Definition zeroed : auto_mem := {| word := 0; next := 0 |}.

(** [sizeof(struct auto_mem)] with 8-byte pointers. *)
Definition sizeof_auto_mem : Z := 16.

Definition newline : string := String (Ascii.ascii_of_nat 10) EmptyString.

(** What the functions do to the outside world. *)
Inductive event : Type :=
| Raise_out_of_memory (lineno : Z)
    (* ecpg_raise(lineno, ECPG_OUT_OF_MEMORY, ECPG_SQLSTATE_ECPG_OUT_OF_MEMORY, NULL) *)
| Log (msg : string)          (* ecpg_log(msg) *)
| Free (ptr : Z).             (* free(ptr) *)

(** One thread's view: the live blocks, the thread's slot [auto_allocs]
    (the static variable, or the value under [auto_mem_key]) and the trace. *)
Record state : Type := {
  mem : gmap Z auto_mem;
  auto_allocs : Z;
  trace : list event
}.

Definition init : state := {| mem := ∅; auto_allocs := 0; trace := [] |}.

(** ** The monad *)

Inductive outcome (A : Type) : Type :=
| Done (a : A) (st : state)   (* the call returned [a] *)
| Fault (st : state)          (* invalid memory access in state [st] *)
| Exhausted.                  (* the model's loop bound was reached *)
Arguments Done {A} a st.
Arguments Fault {A} st.
Arguments Exhausted {A}.

Definition M (A : Type) : Type := state -> outcome A.

Definition ret {A} (a : A) : M A := fun st => Done a st.

Definition bind {A B} (m : M A) (k : A -> M B) : M B :=
  fun st => match m st with
            | Done a st' => k a st'
            | Fault st' => Fault st'
            | Exhausted => Exhausted
            end.

Declare Scope ecpg_scope.
Delimit Scope ecpg_scope with ecpg.
Notation "'let*' x ':=' m 'in' k" := (bind m (fun x => k))
  (at level 10, x name, m at level 100, k at level 200) : ecpg_scope.
Notation "m ';;;' k" := (bind m (fun _ => k))
  (at level 100, k at level 200, right associativity) : ecpg_scope.
Open Scope ecpg_scope.

Definition emit (e : event) : M unit :=
  fun st => Done tt {| mem := mem st; auto_allocs := auto_allocs st;
                       trace := trace st ++ [e] |}.

Definition ecpg_log (msg : string) : M unit := emit (Log msg).

(** The struct behind the pointer [a], if [a] is not [NULL] and points to
    a live block. *)
Definition load (m : gmap Z auto_mem) (a : Z) : option auto_mem :=
  if a =? 0 then None else m !! a.

(** [*a] for [a : struct auto_mem *] *)
Definition deref (a : Z) : M auto_mem :=
  fun st => match load (mem st) a with
            | Some n => Done n st
            | None => Fault st
            end.

(** [a->field = ...], as the function [f] on the struct *)
Definition modify (a : Z) (f : auto_mem -> auto_mem) : M unit :=
  fun st => match load (mem st) a with
            | Some n => Done tt {| mem := <[a := f n]> (mem st);
                                   auto_allocs := auto_allocs st;
                                   trace := trace st |}
            | None => Fault st
            end.

Definition get_auto_allocs : M Z := fun st => Done (auto_allocs st) st.

Definition set_auto_allocs (am : Z) : M unit :=
  fun st => Done tt {| mem := mem st; auto_allocs := am; trace := trace st |}.

(** [calloc(nmemb, size)] answering [new]: a successful call makes the block
    live and zero-filled. *)
Definition calloc (nmemb size : Z) (new : Z) : M Z :=
  fun st => if new =? 0 then Done 0 st
            else Done new {| mem := <[new := zeroed]> (mem st);
                             auto_allocs := auto_allocs st;
                             trace := trace st |}.

(** [free(ptr)]: the call is recorded; the block, if live, is gone. *)
Definition free (ptr : Z) : M unit :=
  fun st => Done tt {| mem := delete ptr (mem st);
                       auto_allocs := auto_allocs st;
                       trace := trace st ++ [Free ptr] |}.

(** What the C library answers to [realloc(ptr, size)]: the address of the
    block it hands out ([0] when it fails), whether it released the block at
    [ptr] (it does when it moves the block; it does not when it fails for a
    size other than zero or resizes in place), and what the new block holds
    where the old one gives nothing, as when [ptr] is [NULL]. *)
Record realloc_answer : Type := {
  ra_new : Z;
  ra_released : bool;
  ra_fill : auto_mem
}.

(** [realloc(ptr, size)] answering [a]: the new block is live and starts
    with what the old block held. *)
Definition realloc (ptr size : Z) (a : realloc_answer) : M Z :=
  fun st =>
    let old := load (mem st) ptr in
    let m := if ra_released a then delete ptr (mem st) else mem st in
    Done (ra_new a)
         {| mem := if ra_new a =? 0 then m
                   else <[ra_new a := default (ra_fill a) old]> m;
            auto_allocs := auto_allocs st;
            trace := trace st |}.

(** ** The functions of memory.c *)

Definition ecpg_free (ptr : Z) : M unit := free ptr.

Definition ecpg_alloc (size lineno : Z) (calloc_answer : Z) : M Z :=
  let* new := calloc 1 size calloc_answer in
  if new =? 0 then
    emit (Raise_out_of_memory lineno);;;
    ret 0
  else ret new.

Definition ecpg_realloc (ptr size lineno : Z) (answer : realloc_answer) : M Z :=
  let* new := realloc ptr size answer in
  if new =? 0 then
    emit (Raise_out_of_memory lineno);;;
    ret 0
  else ret new.

(** [strdup(string)] answers [strdup_answer]; the copy is not a block of
    the registry's and is not entered in [mem]. *)
Definition ecpg_strdup (string lineno : Z) (strdup_answer : Z) : M Z :=
  if string =? 0 then ret 0
  else
    let new := strdup_answer in
    if new =? 0 then
      emit (Raise_out_of_memory lineno);;;
      ret 0
    else ret new.

Definition ecpg_add_mem (ptr lineno : Z) (calloc_answer : Z) : M bool :=
  let* am := ecpg_alloc sizeof_auto_mem lineno calloc_answer in
  if am =? 0 then ret false
  else
    modify am (set_pointer ptr);;;
    let* head := get_auto_allocs in
    modify am (set_next head);;;
    let* a := deref am in
    let* disabled :=
      (if next a =? 0 then ret false
       else
         let* n := deref (next a) in
         modify (next a) (set_auto_clear_disabled false);;;
         ret (auto_clear_disabled n)) in
    (if disabled : bool then modify am (set_auto_clear_disabled true) else ret tt);;;
    set_auto_allocs am;;;
    ret true.

Definition ecpg_auto_alloc (size lineno : Z) (calloc_ptr calloc_am : Z) : M Z :=
  let* ptr := ecpg_alloc size lineno calloc_ptr in
  if ptr =? 0 then ret 0
  else
    let* ok := ecpg_add_mem ptr lineno calloc_am in
    if negb ok then
      ecpg_free ptr;;;
      ret 0
    else ret ptr.

(** The body of the [do ... while (am)] loop of [ECPGfree_auto_mem]. *)
Fixpoint free_loop (fuel : nat) (am : Z) : M unit :=
  match fuel with
  | O => fun _ => Exhausted
  | S fuel' =>
      let* act := deref am in
      ecpg_free (pointer act);;;
      ecpg_free am;;;
      if next act =? 0 then ret tt else free_loop fuel' (next act)
  end.

(** Every turn of either loop frees the live block it stands on, so one
    more turn than there are live blocks is never needed. *)
Definition loop_bound : M nat := fun st => Done (S (size (mem st))) st.

Definition ECPGfree_auto_mem : M unit :=
  let* am := get_auto_allocs in
  if am =? 0 then ret tt
  else
    let* a := deref am in
    (if auto_clear_disabled a then
       ecpg_log ("ECPGfree_auto_mem re-enabled auto-clear on exec" ++ newline);;;
       modify am (set_auto_clear_disabled false)
     else ret tt);;;
    let* fuel := loop_bound in
    free_loop fuel am;;;
    set_auto_allocs 0.

Definition ECPGdisable_auto_mem_clear_on_exec (calloc_answer : Z) : M unit :=
  let* am := get_auto_allocs in
  ecpg_log ("Disabling auto-free on exec" ++ newline);;;
  let* am :=
    (if negb (am =? 0) then
       let* a := deref am in
       (if auto_clear_disabled a then
          ecpg_log ("warning: Logic error: auto-clear on exec already disabled for this thread"
                    ++ newline)
        else ret tt);;;
       ret am
     else
       let* am := ecpg_alloc sizeof_auto_mem 0 calloc_answer in
       set_auto_allocs am;;;
       ret am) in
  modify am (set_auto_clear_disabled true).

(** The body of the [do ... while (am)] loop of [ecpg_clear_auto_mem]. *)
Fixpoint clear_loop (fuel : nat) (am : Z) : M unit :=
  match fuel with
  | O => fun _ => Exhausted
  | S fuel' =>
      let* act := deref am in
      ecpg_free am;;;
      if next act =? 0 then ret tt else clear_loop fuel' (next act)
  end.

Definition ecpg_clear_auto_mem : M unit :=
  let* am := get_auto_allocs in
  if am =? 0 then ret tt
  else
    let* a := deref am in
    if auto_clear_disabled a then
      ecpg_log ("Not freeing auto-allocated structures; awaiting ECPGfree_auto_mem()"
                ++ newline)
    else
      let* fuel := loop_bound in
      clear_loop fuel am;;;
      set_auto_allocs 0.

(** [auto_mem_destructor], run by the thread library when the thread ends.
    The library hands it the value the key had in [arg], which the function
    discards, and has reset the key to [NULL] before the call. *)
Definition auto_mem_destructor (arg : Z) : M unit := ECPGfree_auto_mem.

(** The end of a thread, as the thread library runs it for the key that
    [auto_mem_key_init] creates with [auto_mem_destructor]: when the key
    holds a value other than [NULL], the library sets the key to [NULL] and
    then calls the destructor with the value the key had. *)
Definition thread_exit : M unit :=
  let* arg := get_auto_allocs in
  if arg =? 0 then ret tt
  else (set_auto_allocs 0 ;;; auto_mem_destructor arg).

(** ** The calls a thread makes *)

Inductive call : Type :=
| Call_auto_alloc (size lineno : Z) (calloc_ptr calloc_am : Z)
| Call_add_mem (ptr lineno : Z) (calloc_am : Z)
| Call_free_auto_mem
| Call_disable_auto_mem_clear_on_exec (calloc_am : Z)
| Call_clear_auto_mem.

Inductive retval : Type :=
| Ptr (p : Z)      (* char * *)
| Bool (b : bool)  (* bool *)
| Void.

Definition exec (c : call) : M retval :=
  match c with
  | Call_auto_alloc size lineno calloc_ptr calloc_am =>
      let* p := ecpg_auto_alloc size lineno calloc_ptr calloc_am in ret (Ptr p)
  | Call_add_mem ptr lineno calloc_am =>
      let* b := ecpg_add_mem ptr lineno calloc_am in ret (Bool b)
  | Call_free_auto_mem => ECPGfree_auto_mem;;; ret Void
  | Call_disable_auto_mem_clear_on_exec calloc_am =>
      ECPGdisable_auto_mem_clear_on_exec calloc_am;;; ret Void
  | Call_clear_auto_mem => ecpg_clear_auto_mem;;; ret Void
  end.

Fixpoint run (cs : list call) : M (list retval) :=
  match cs with
  | [] => ret []
  | c :: cs' =>
      let* v := exec c in
      let* vs := run cs' in
      ret (v :: vs)
  end.

(** What the C library guarantees about [calloc]: the answer is [NULL] or a
    block that was not live. *)
Definition fresh (st : state) (a : Z) : Prop := a = 0 ∨ mem st !! a = None.

Definition calloc_ok (st : state) (c : call) : Prop :=
  match c with
  | Call_auto_alloc _ _ calloc_ptr calloc_am =>
      fresh st calloc_ptr ∧ fresh st calloc_am ∧ (calloc_ptr ≠ 0 → calloc_am ≠ calloc_ptr)
  | Call_add_mem _ _ calloc_am => fresh st calloc_am
  | Call_disable_auto_mem_clear_on_exec calloc_am => fresh st calloc_am
  | Call_free_auto_mem | Call_clear_auto_mem => True
  end.

(** The states a thread can be in: it starts with no list and makes calls
    that return. *)
Inductive reachable : state -> Prop :=
| reachable_init : reachable init
| reachable_call st c v st' :
    reachable st -> calloc_ok st c -> exec c st = Done v st' -> reachable st'.

(** ** The list behind [auto_allocs] *)

(** [chain m a l]: starting at address [a] and following [next] in the
    memory [m] one meets exactly the nodes [l] (address, contents), the last
    of which has [next == NULL]. *)
Fixpoint chain (m : gmap Z auto_mem) (a : Z) (l : list (Z * auto_mem)) : Prop :=
  match l with
  | [] => a = 0
  | (b, n) :: l' => a = b ∧ b ≠ 0 ∧ m !! b = Some n ∧ chain m (next n) l'
  end.

Definition addrs (l : list (Z * auto_mem)) : list Z := fst <$> l.

(** The pointer a node stands for: the union's word without the flag bit.
    Where the flag is clear this is [pointer] itself. *)
Definition owned (n : auto_mem) : Z := Z.clearbit (word n) 0.

Definition tracked (l : list (Z * auto_mem)) : list Z := (fun x => owned (snd x)) <$> l.

Definition head_addr (l : list (Z * auto_mem)) : Z :=
  match l with [] => 0 | (a, _) :: _ => a end.

Definition head_flag (l : list (Z * auto_mem)) : bool :=
  match l with [] => false | (_, n) :: _ => auto_clear_disabled n end.

Definition unflag_head (l : list (Z * auto_mem)) : list (Z * auto_mem) :=
  match l with [] => [] | (a, n) :: l' => (a, set_auto_clear_disabled false n) :: l' end.

(** The list after a successful [ecpg_add_mem(ptr, ...)] whose node is [am]. *)
Definition push (am ptr : Z) (l : list (Z * auto_mem)) : list (Z * auto_mem) :=
  (am, {| word := if head_flag l then Z.setbit ptr 0 else ptr; next := head_addr l |})
    :: unflag_head l.

(** The list after a successful [ECPGdisable_auto_mem_clear_on_exec()]:
    [am] is the placeholder, used when there was no list. *)
Definition disabled (am : Z) (l : list (Z * auto_mem)) : list (Z * auto_mem) :=
  match l with
  | [] => [(am, {| word := 1; next := 0 |})]
  | (a, n) :: l' => (a, set_auto_clear_disabled true n) :: l'
  end.

Definition unflagged (x : Z * auto_mem) : Prop := auto_clear_disabled (snd x) = false.

(** No node behind the head carries the flag. *)
Definition unflagged_tail (l : list (Z * auto_mem)) : Prop := Forall unflagged (tail l).

(** No tracked pointer is the address of a node of the list. *)
Definition separated (l : list (Z * auto_mem)) : Prop :=
  Forall (fun p => p ∉ addrs l) (tracked l).

Record wf (st : state) (l : list (Z * auto_mem)) : Prop := {
  wf_chain : chain (mem st) (auto_allocs st) l;
  wf_tail : unflagged_tail l;
  wf_sep : separated l
}.

(** The calls to [free] that releasing the list [l] makes: for each node,
    from the head on, the pointer it owns and then the node. *)
Definition releases (l : list (Z * auto_mem)) : list event :=
  flat_map (fun x => [Free (owned (snd x)); Free (fst x)]) l.

(** The calls to [free] that releasing only the nodes of [l] makes. *)
Definition node_releases (l : list (Z * auto_mem)) : list event :=
  (fun x => Free (fst x)) <$> l.

(** How many times [free(p)] has been called. *)
Fixpoint times_freed (p : Z) (t : list event) : nat :=
  match t with
  | [] => 0
  | Free q :: t' => if q =? p then S (times_freed p t') else times_freed p t'
  | _ :: t' => times_freed p t'
  end.

(** ** Registrations *)

(** The pointer a registering call registers, and the node [calloc] gave it. *)
Definition reg_ptr (c : call) : Z :=
  match c with
  | Call_auto_alloc _ _ calloc_ptr _ => calloc_ptr
  | Call_add_mem ptr _ _ => ptr
  | _ => 0
  end.

Definition reg_node (c : call) : Z :=
  match c with
  | Call_auto_alloc _ _ _ calloc_am => calloc_am
  | Call_add_mem _ _ calloc_am => calloc_am
  | _ => 0
  end.

(** What a successful registration returns. *)
Definition reg_result (c : call) : retval :=
  match c with
  | Call_auto_alloc _ _ calloc_ptr _ => Ptr calloc_ptr
  | Call_add_mem _ _ _ => Bool true
  | _ => Void
  end.

(** [c] is a registration whose allocations succeed. *)
Definition registers (c : call) : Prop :=
  match c with
  | Call_auto_alloc _ _ calloc_ptr calloc_am => calloc_ptr ≠ 0 ∧ calloc_am ≠ 0
  | Call_add_mem _ _ calloc_am => calloc_am ≠ 0
  | _ => False
  end.

(** The low bit of the pointer is free for the flag, as it is in every
    pointer that [calloc] and [malloc] return. *)
Definition aligned (p : Z) : Prop := Z.testbit p 0 = false.

(** The node [am] is a block of its own, and the pointer [ptr] is not one
    of the tracking nodes. *)
Definition apart (l : list (Z * auto_mem)) (am ptr : Z) : Prop :=
  (am ∉ addrs l) ∧ (am ∉ tracked l) ∧ (ptr ∉ am :: addrs l).

Definition register (l : list (Z * auto_mem)) (c : call) : list (Z * auto_mem) :=
  push (reg_node c) (reg_ptr c) l.

(** Every call of [cs] is a successful registration of an aligned pointer,
    apart from the list as it stands when the call is made. *)
Fixpoint registrations (l : list (Z * auto_mem)) (cs : list call) : Prop :=
  match cs with
  | [] => True
  | c :: cs' =>
      registers c ∧ aligned (reg_ptr c) ∧ apart l (reg_node c) (reg_ptr c) ∧
      registrations (register l c) cs'
  end.

(** ** Calls, by what they do to the list *)

(** The list after the call [c] has returned, for a call made on the list
    [l]. *)
Definition effect (c : call) (l : list (Z * auto_mem)) : list (Z * auto_mem) :=
  match c with
  | Call_auto_alloc _ _ calloc_ptr calloc_am =>
      if (calloc_ptr =? 0) || (calloc_am =? 0) then l else push calloc_am calloc_ptr l
  | Call_add_mem ptr _ calloc_am =>
      if calloc_am =? 0 then l else push calloc_am ptr l
  | Call_free_auto_mem => []
  | Call_disable_auto_mem_clear_on_exec calloc_am => disabled calloc_am l
  | Call_clear_auto_mem => if head_flag l then l else []
  end.

(** What the call [c] returns. *)
Definition returns (c : call) : retval :=
  match c with
  | Call_auto_alloc _ _ calloc_ptr calloc_am =>
      Ptr (if (calloc_ptr =? 0) || (calloc_am =? 0) then 0 else calloc_ptr)
  | Call_add_mem _ _ calloc_am => Bool (negb (calloc_am =? 0))
  | _ => Void
  end.

(** What is asked of the call [c] made on the list [l]: a block that
    [calloc] hands out is not a node of the list; a registration whose
    allocations succeed registers an aligned pointer, apart from the list;
    the disabling finds a list or gets its placeholder. *)
Definition admissible (l : list (Z * auto_mem)) (c : call) : Prop :=
  match c with
  | Call_auto_alloc _ _ calloc_ptr calloc_am =>
      calloc_ptr = 0 ∨
      ((calloc_ptr ∉ addrs l) ∧
       (calloc_am = 0 ∨ (aligned calloc_ptr ∧ apart l calloc_am calloc_ptr)))
  | Call_add_mem ptr _ calloc_am =>
      calloc_am = 0 ∨ (aligned ptr ∧ apart l calloc_am ptr)
  | Call_disable_auto_mem_clear_on_exec calloc_am => l ≠ [] ∨ calloc_am ≠ 0
  | Call_free_auto_mem | Call_clear_auto_mem => True
  end.

(** Every call of [cs] is admissible on the list as it stands when the
    call is made. *)
Fixpoint all_admissible (l : list (Z * auto_mem)) (cs : list call) : Prop :=
  match cs with
  | [] => True
  | c :: cs' => admissible l c ∧ all_admissible (effect c l) cs'
  end.

(** [ECPGfree_auto_mem] and [ecpg_clear_auto_mem] are the calls that clear. *)
Definition clears (c : call) : bool :=
  match c with
  | Call_free_auto_mem | Call_clear_auto_mem => true
  | _ => false
  end.

(** The memory after releasing the list [l], and after releasing only its
    nodes. *)
Definition sweep (l : list (Z * auto_mem)) (m : gmap Z auto_mem) : gmap Z auto_mem :=
  foldl (fun m x => delete (fst x) (delete (owned (snd x)) m)) m l.

Definition sweep_nodes (l : list (Z * auto_mem)) (m : gmap Z auto_mem) : gmap Z auto_mem :=
  foldl (fun m x => delete (fst x) m) m l.

Definition msg_reenabled : string :=
  "ECPGfree_auto_mem re-enabled auto-clear on exec" ++ newline.
Definition msg_disabling : string := "Disabling auto-free on exec" ++ newline.
Definition msg_already_disabled : string :=
  "warning: Logic error: auto-clear on exec already disabled for this thread" ++ newline.
Definition msg_not_freeing : string :=
  "Not freeing auto-allocated structures; awaiting ECPGfree_auto_mem()" ++ newline.

(** ** States, by what changed *)

Definition with_mem (m : gmap Z auto_mem) (st : state) : state :=
  {| mem := m; auto_allocs := auto_allocs st; trace := trace st |}.

Definition with_event (e : event) (st : state) : state :=
  {| mem := mem st; auto_allocs := auto_allocs st; trace := trace st ++ [e] |}.

(** The memory once the old head has lost the flag. *)
Definition unflag_mem (l : list (Z * auto_mem)) (m : gmap Z auto_mem) : gmap Z auto_mem :=
  match l with
  | [] => m
  | (h, n) :: _ => <[h := set_auto_clear_disabled false n]> m
  end.

(** The memory after a successful [ECPGdisable_auto_mem_clear_on_exec()]. *)
Definition disabled_mem (am : Z) (l : list (Z * auto_mem)) (m : gmap Z auto_mem)
  : gmap Z auto_mem :=
  match l with
  | [] => <[am := {| word := 1; next := 0 |}]> m
  | (h, n) :: _ => <[h := set_auto_clear_disabled true n]> m
  end.

Ltac msimpl :=
  unfold bind, ret, ecpg_free, ecpg_log, emit, deref, modify, get_auto_allocs,
    set_auto_allocs, calloc, free, loop_bound;
  cbn [mem auto_allocs trace].

(** Closed goals about concrete addresses. *)
Ltac notin_list :=
  let H := fresh in
  intros H; apply list_elem_of_In in H; vm_compute in H;
  repeat (destruct H as [H | H]; [discriminate H |]); exact H.

Ltac concrete :=
  cbn [registrations registers reg_ptr reg_node chain mem auto_allocs next app];
  try unfold apart;
  repeat match goal with
         | |- _ ∧ _ => split
         | |- True => exact I
         end;
  first [ vm_compute; reflexivity | vm_compute; discriminate | notin_list ].

(** * Properties *)

(** ** The flag bit *)

Lemma testbit0_setbit w : Z.testbit (Z.setbit w 0) 0 = true.
Proof. apply Z.setbit_eq; lia. Qed.

Lemma testbit0_clearbit w : Z.testbit (Z.clearbit w 0) 0 = false.
Proof. apply Z.clearbit_eq. Qed.

Lemma clearbit_setbit w : Z.clearbit (Z.setbit w 0) 0 = Z.clearbit w 0.
Proof.
  apply Z.bits_inj'. intros k Hk.
  rewrite !Z.clearbit_eqb, Z.setbit_eqb by lia.
  destruct (Z.eqb_spec 0 k); simpl; [now rewrite !andb_false_r | reflexivity].
Qed.

Lemma clearbit_clearbit w : Z.clearbit (Z.clearbit w 0) 0 = Z.clearbit w 0.
Proof.
  apply Z.bits_inj'. intros k Hk.
  rewrite !Z.clearbit_eqb.
  destruct (Z.eqb_spec 0 k); simpl; [now rewrite !andb_false_r | now rewrite !andb_true_r].
Qed.

Lemma clearbit_clear w : Z.testbit w 0 = false -> Z.clearbit w 0 = w.
Proof.
  intros H. apply Z.bits_inj'. intros k Hk.
  rewrite Z.clearbit_eqb.
  destruct (Z.eqb_spec 0 k) as [<- | ];
    [now rewrite H | apply andb_true_r].
Qed.

Lemma setbit_set w : Z.testbit w 0 = true -> Z.setbit w 0 = w.
Proof.
  intros H. apply Z.bits_inj'. intros k Hk.
  rewrite Z.setbit_eqb by lia.
  destruct (Z.eqb_spec 0 k) as [<- | ]; [now rewrite H | reflexivity].
Qed.

Lemma owned_set v n : owned (set_auto_clear_disabled v n) = owned n.
Proof.
  unfold owned. destruct v; simpl; [apply clearbit_setbit | apply clearbit_clearbit].
Qed.

Lemma flag_set v n : auto_clear_disabled (set_auto_clear_disabled v n) = v.
Proof.
  unfold auto_clear_disabled. destruct v; simpl;
    [apply testbit0_setbit | apply testbit0_clearbit].
Qed.

Lemma set_flag_again n :
  set_auto_clear_disabled true (set_auto_clear_disabled true n)
    = set_auto_clear_disabled true n.
Proof.
  unfold set_auto_clear_disabled. cbn [word next]. f_equal.
  apply setbit_set, testbit0_setbit.
Qed.

Lemma next_set v n : next (set_auto_clear_disabled v n) = next n.
Proof. reflexivity. Qed.

Lemma owned_unflagged n : auto_clear_disabled n = false -> pointer n = owned n.
Proof. intros H. unfold pointer, owned. symmetry. now apply clearbit_clear. Qed.

Lemma set_flag_id n : set_auto_clear_disabled (auto_clear_disabled n) n = n.
Proof.
  destruct n as [w nx]. unfold set_auto_clear_disabled, auto_clear_disabled.
  cbn [word next]. f_equal. destruct (Z.testbit w 0) eqn:E; [now apply setbit_set | now apply clearbit_clear].
Qed.

(** ** Chains *)

Lemma chain_null m l : chain m 0 l -> l = [].
Proof. destruct l as [| [b n] l]; [reflexivity | simpl; intros (<- & ? & _); congruence]. Qed.

Lemma chain_head m a l : chain m a l -> a = head_addr l.
Proof. destruct l as [| [b n] l]; simpl; [auto | now intros (-> & _)]. Qed.

Lemma chain_det m a l1 l2 : chain m a l1 -> chain m a l2 -> l1 = l2.
Proof.
  revert a l2. induction l1 as [| [b n] l1 IH]; intros a l2 H1 H2; simpl in H1.
  - subst a. symmetry. eapply chain_null, H2.
  - destruct H1 as (-> & Hb & Hn & H1).
    destruct l2 as [| [b' n'] l2]; simpl in H2; [congruence |].
    destruct H2 as (<- & _ & Hn' & H2).
    assert (n' = n) as -> by congruence.
    f_equal. eapply IH; eauto.
Qed.

Lemma chain_lookup m a l b n : chain m a l -> (b, n) ∈ l -> m !! b = Some n ∧ b ≠ 0.
Proof.
  revert a. induction l as [| [c k] l IH]; intros a H Hin.
  - inversion Hin.
  - simpl in H. destruct H as (-> & Hc & Hk & H).
    apply elem_of_cons in Hin as [[= -> ->] | Hin]; [auto | eauto].
Qed.

Lemma chain_addr_live m a l b : chain m a l -> b ∈ addrs l -> is_Some (m !! b) ∧ b ≠ 0.
Proof.
  intros H Hb. apply list_elem_of_fmap in Hb as ([c n] & -> & Hin).
  destruct (chain_lookup _ _ _ _ _ H Hin). simpl. eauto.
Qed.

Lemma chain_suffix m a l1 l2 : chain m a (l1 ++ l2) -> ∃ b, chain m b l2.
Proof.
  revert a. induction l1 as [| [c k] l1 IH]; intros a H; simpl in H; [eauto |].
  destruct H as (_ & _ & _ & H). eauto.
Qed.

(** A chain ends, so it cannot come back to a node it has left. *)
Lemma chain_NoDup m a l : chain m a l -> NoDup (addrs l).
Proof.
  revert a. induction l as [| [b n] l IH]; intros a H; simpl.
  - constructor.
  - pose proof H as H0. simpl in H. destruct H as (-> & Hb & Hn & H).
    apply NoDup_cons. split; [| eauto].
    intros Hin. apply list_elem_of_fmap in Hin as ([c k] & Hc & Hin). simpl in Hc. subst c.
    apply list_elem_of_split in Hin as (l1 & l2 & ->).
    destruct (chain_suffix _ _ _ _ H) as (b' & H').
    pose proof H' as H''. simpl in H''. destruct H'' as (-> & _).
    pose proof (chain_det _ _ _ _ H0 H') as E.
    apply (f_equal length) in E. simpl in E. rewrite length_app in E. simpl in E. lia.
Qed.

Lemma chain_insert m a l b x : b ∉ addrs l -> chain m a l -> chain (<[b := x]> m) a l.
Proof.
  revert a. induction l as [| [c k] l IH]; intros a Hb H; simpl in *; [assumption |].
  apply not_elem_of_cons in Hb as [Hbc Hb].
  destruct H as (-> & Hc & Hk & H). repeat split; auto.
  rewrite lookup_insert_ne; auto.
Qed.

Lemma chain_delete m a l b : b ∉ addrs l -> chain m a l -> chain (delete b m) a l.
Proof.
  revert a. induction l as [| [c k] l IH]; intros a Hb H; simpl in *; [assumption |].
  apply not_elem_of_cons in Hb as [Hbc Hb].
  destruct H as (-> & Hc & Hk & H). repeat split; auto.
  rewrite lookup_delete_ne; auto.
Qed.

(** Writing to the head node, its link kept. *)
Lemma chain_update_head m a n l n' :
  chain m a ((a, n) :: l) -> next n' = next n ->
  chain (<[a := n']> m) a ((a, n') :: l).
Proof.
  intros H Hnx. pose proof (chain_NoDup _ _ _ H) as Hnd.
  simpl in H. destruct H as (_ & Ha & Hn & H).
  simpl in Hnd. apply NoDup_cons in Hnd as [Hnotin _].
  simpl. repeat split; auto.
  - apply lookup_insert_eq.
  - rewrite Hnx. now apply chain_insert.
Qed.

Lemma chain_length m a l : chain m a l -> (length l <= size m)%nat.
Proof.
  revert m a. induction l as [| [b n] l IH]; intros m a H; simpl; [lia |].
  pose proof (chain_NoDup _ _ _ H) as Hnd. simpl in Hnd.
  apply NoDup_cons in Hnd as [Hnotin _].
  simpl in H. destruct H as (-> & Hb & Hn & H).
  apply (chain_delete _ _ _ b) in H; [| assumption].
  apply IH in H. rewrite map_size_delete_Some in H by eauto.
  assert (size m ≠ 0%nat); [| lia].
  intros E. apply map_size_empty_iff in E. subst m. rewrite lookup_empty in Hn. discriminate.
Qed.

(** ** Memory accesses *)

Lemma load_null m : load m 0 = None.
Proof. reflexivity. Qed.

Lemma load_live m a n : a ≠ 0 -> m !! a = Some n -> load m a = Some n.
Proof. intros Ha Hn. unfold load. now apply Z.eqb_neq in Ha as ->. Qed.

Lemma load_insert_eq m a x : a ≠ 0 -> load (<[a := x]> m) a = Some x.
Proof. intros Ha. apply load_live; [assumption | apply lookup_insert_eq]. Qed.

Lemma load_insert_ne m a b x : a ≠ b -> load (<[a := x]> m) b = load m b.
Proof. intros Hne. unfold load. now rewrite lookup_insert_ne. Qed.

(** ** The functions, one by one *)

Lemma ecpg_alloc_null size lineno st :
  ecpg_alloc size lineno 0 st = Done 0 (with_event (Raise_out_of_memory lineno) st).
Proof. reflexivity. Qed.

Lemma ecpg_alloc_block size lineno new st :
  new ≠ 0 ->
  ecpg_alloc size lineno new st = Done new (with_mem (<[new := zeroed]> (mem st)) st).
Proof.
  intros H. apply Z.eqb_neq in H. unfold ecpg_alloc. msimpl. rewrite !H. reflexivity.
Qed.

Lemma ecpg_add_mem_null ptr lineno st :
  ecpg_add_mem ptr lineno 0 st = Done false (with_event (Raise_out_of_memory lineno) st).
Proof. reflexivity. Qed.

Lemma ecpg_add_mem_push ptr lineno am st l :
  chain (mem st) (auto_allocs st) l -> am ≠ 0 -> am ∉ addrs l ->
  ecpg_add_mem ptr lineno am st =
    Done true {| mem := <[am := {| word := if head_flag l then Z.setbit ptr 0 else ptr;
                                   next := head_addr l |}]> (unflag_mem l (mem st));
                 auto_allocs := am; trace := trace st |}.
Proof.
  intros Hch Ham Hnotin. unfold ecpg_add_mem. unfold bind at 1.
  rewrite ecpg_alloc_block by assumption.
  apply Z.eqb_neq in Ham as Ham'. rewrite Ham'. unfold with_mem. msimpl.
  rewrite load_insert_eq by assumption. msimpl. rewrite load_insert_eq by assumption. msimpl.
  rewrite load_insert_eq by assumption. cbn [set_next set_pointer word next zeroed].
  destruct l as [| [h n] l].
  - simpl in Hch. rewrite Hch. cbn [Z.eqb]. msimpl.
    rewrite !insert_insert_eq. reflexivity.
  - simpl in Hch. destruct Hch as (Hh & Hh0 & Hn & Hch). rewrite Hh.
    apply not_elem_of_cons in Hnotin as [Hne _]. simpl in Hne.
    apply Z.eqb_neq in Hh0 as Hh0'. rewrite Hh0'. msimpl.
    rewrite !insert_insert_eq, load_insert_ne, (load_live _ _ n) by assumption. msimpl.
    rewrite load_insert_ne, (load_live _ _ n) by assumption. msimpl.
    cbn [head_flag head_addr unflag_mem].
    destruct (auto_clear_disabled n); msimpl.
    + rewrite load_insert_ne, load_insert_eq by congruence. msimpl.
      f_equal. f_equal. rewrite (insert_insert_ne (mem st) h am) by congruence.
      rewrite insert_insert_eq. reflexivity.
    + f_equal. f_equal. rewrite (insert_insert_ne (mem st) h am) by congruence.
      reflexivity.
Qed.

(** ** The list under [ecpg_add_mem] *)

Lemma addrs_unflag_head l : addrs (unflag_head l) = addrs l.
Proof. now destruct l as [| [h n] l]. Qed.

Lemma tracked_unflag_head l : tracked (unflag_head l) = tracked l.
Proof.
  destruct l as [| [h n] l]; [reflexivity |].
  unfold tracked. simpl. now rewrite owned_set.
Qed.

Lemma releases_unflag_head l : releases (unflag_head l) = releases l.
Proof.
  destruct l as [| [h n] l]; [reflexivity |].
  unfold releases. simpl. now rewrite owned_set.
Qed.

Lemma chain_unflag_head m a l : chain m a l -> chain (unflag_mem l m) a (unflag_head l).
Proof.
  destruct l as [| [h n] l]; [trivial |]. intros H.
  pose proof H as (-> & _). eapply chain_update_head; [exact H | reflexivity].
Qed.

Lemma unflag_head_all l : unflagged_tail l -> Forall unflagged (unflag_head l).
Proof.
  destruct l as [| [h n] l]; intros H; [constructor |].
  constructor; [apply flag_set | exact H].
Qed.

Lemma chain_push m a l am ptr :
  chain m a l -> am ≠ 0 -> am ∉ addrs l ->
  chain (<[am := {| word := if head_flag l then Z.setbit ptr 0 else ptr;
                    next := head_addr l |}]> (unflag_mem l m))
        am (push am ptr l).
Proof.
  intros H Ham Hnotin. unfold push. cbn [chain next].
  repeat split; [assumption | apply lookup_insert_eq |].
  apply chain_insert; [now rewrite addrs_unflag_head |].
  rewrite <- (chain_head _ _ _ H). now apply chain_unflag_head.
Qed.

Lemma owned_push_word (b : bool) ptr :
  aligned ptr -> Z.clearbit (if b then Z.setbit ptr 0 else ptr) 0 = ptr.
Proof.
  intros H. destruct b; [rewrite clearbit_setbit |]; now apply clearbit_clear.
Qed.

Lemma head_flag_push am ptr l :
  head_flag (push am ptr l) = head_flag l || Z.testbit ptr 0.
Proof.
  unfold push. cbn [head_flag]. unfold auto_clear_disabled. cbn [word].
  destruct (head_flag l); [apply testbit0_setbit | reflexivity].
Qed.

Lemma separated_push am ptr l :
  aligned ptr -> separated l -> apart l am ptr -> separated (push am ptr l).
Proof.
  intros Hal Hsep (Ham & Hamt & Hptr). unfold separated, push, tracked, addrs.
  cbn [fmap list_fmap snd fst]. fold (tracked (unflag_head l)). fold (addrs (unflag_head l)).
  rewrite tracked_unflag_head, addrs_unflag_head.
  constructor.
  - unfold owned. cbn [word]. now rewrite owned_push_word.
  - unfold separated in Hsep. rewrite Forall_forall in *. intros p Hp.
    apply not_elem_of_cons. split; [| auto]. intros ->. contradiction.
Qed.

Lemma wf_push st l am ptr :
  wf st l -> am ≠ 0 -> aligned ptr -> apart l am ptr ->
  wf {| mem := <[am := {| word := if head_flag l then Z.setbit ptr 0 else ptr;
                          next := head_addr l |}]> (unflag_mem l (mem st));
        auto_allocs := am; trace := trace st |}
     (push am ptr l).
Proof.
  intros [Hch Htl Hsep] Ham Hal Hap. split; cbn [mem auto_allocs].
  - eapply chain_push; [exact Hch | assumption | apply Hap].
  - unfold unflagged_tail, push. cbn [tail]. now apply unflag_head_all.
  - now apply separated_push.
Qed.

Lemma ecpg_auto_alloc_push size lineno ptr am st l :
  chain (mem st) (auto_allocs st) l -> ptr ≠ 0 -> am ≠ 0 ->
  ptr ∉ addrs l -> am ∉ addrs l ->
  ecpg_auto_alloc size lineno ptr am st =
    Done ptr {| mem := <[am := {| word := if head_flag l then Z.setbit ptr 0 else ptr;
                                  next := head_addr l |}]>
                         (unflag_mem l (<[ptr := zeroed]> (mem st)));
                auto_allocs := am; trace := trace st |}.
Proof.
  intros Hch Hptr Ham Hp Ha. unfold ecpg_auto_alloc. unfold bind at 1.
  rewrite ecpg_alloc_block by assumption.
  apply Z.eqb_neq in Hptr as Hptr'. rewrite Hptr'. unfold bind at 1.
  rewrite (ecpg_add_mem_push _ _ _ _ l); [reflexivity | | assumption ..].
  unfold with_mem. cbn [mem auto_allocs]. now apply chain_insert.
Qed.

Lemma wf_calloc st l ptr :
  wf st l -> ptr ∉ addrs l -> wf (with_mem (<[ptr := zeroed]> (mem st)) st) l.
Proof.
  intros [Hch Htl Hsep] Hp. split; [| assumption ..].
  unfold with_mem. cbn [mem auto_allocs]. now apply chain_insert.
Qed.

Lemma exec_register st l c :
  wf st l -> registers c -> aligned (reg_ptr c) -> apart l (reg_node c) (reg_ptr c) ->
  ∃ st', exec c st = Done (reg_result c) st' ∧ wf st' (register l c) ∧ trace st' = trace st.
Proof.
  intros Hwf Hreg Hal Hap. pose proof Hap as (Ha & Hat & Hp).
  apply not_elem_of_cons in Hp as [Hpa Hp].
  destruct c as [size lineno ptr am | ptr lineno am | | am |]; cbn in Hreg; try contradiction;
    unfold register, exec, bind; cbn [reg_ptr reg_node reg_result] in *.
  - destruct Hreg as [Hptr Ham].
    rewrite (ecpg_auto_alloc_push _ _ _ _ _ l) by (try apply Hwf; assumption).
    eexists. split; [reflexivity |]. split; [| reflexivity].
    exact (wf_push (with_mem (<[ptr := zeroed]> (mem st)) st) l am ptr
             (wf_calloc _ _ _ Hwf Hp) Ham Hal Hap).
  - rewrite (ecpg_add_mem_push _ _ _ _ l) by (try apply Hwf; assumption).
    eexists. split; [reflexivity |]. split; [| reflexivity].
    now apply wf_push.
Qed.

Lemma run_registrations cs : ∀ st l,
  wf st l -> registrations l cs ->
  ∃ st', run cs st = Done (reg_result <$> cs) st' ∧ wf st' (foldl register l cs) ∧
         trace st' = trace st.
Proof.
  induction cs as [| c cs IH]; intros st l Hwf Hregs.
  - exists st. split; [reflexivity |]. now split.
  - cbn [registrations] in Hregs. destruct Hregs as (Hreg & Hal & Hap & Hregs).
    destruct (exec_register st l c Hwf Hreg Hal Hap) as (st1 & Hex & Hwf1 & Htr1).
    destruct (IH st1 _ Hwf1 Hregs) as (st2 & Hrun & Hwf2 & Htr2).
    exists st2. cbn [run foldl fmap list_fmap]. unfold bind. rewrite Hex, Hrun.
    split; [reflexivity |]. split; [assumption | congruence].
Qed.


Lemma head_flag_registrations cs : ∀ l,
  registrations l cs -> head_flag (foldl register l cs) = head_flag l.
Proof.
  induction cs as [| c cs IH]; intros l Hregs; [reflexivity |].
  cbn [registrations] in Hregs. destruct Hregs as (_ & Hal & _ & Hregs).
  cbn [foldl]. rewrite IH by assumption. unfold register.
  rewrite head_flag_push, Hal. apply orb_false_r.
Qed.

(** ** The loops *)

Lemma chain_tail_next m n l : chain m (next n) l -> (next n =? 0) = true -> l = [].
Proof. intros H E. apply Z.eqb_eq in E. rewrite E in H. eapply chain_null, H. Qed.

Lemma chain_next_nonnull m a x l : chain m a (x :: l) -> (a =? 0) = false.
Proof. destruct x as [b n]. intros (-> & Hb & _). now apply Z.eqb_neq. Qed.

Lemma separated_tail x l : separated (x :: l) -> separated l ∧ owned (snd x) ∉ addrs l.
Proof.
  unfold separated, tracked, addrs. cbn [fmap list_fmap]. intros H.
  apply Forall_cons in H as [Hx H]. apply not_elem_of_cons in Hx as [_ Hx].
  split; [| assumption].
  eapply Forall_impl; [exact H |]. cbn beta. intros p Hp.
  now apply not_elem_of_cons in Hp as [_ Hp].
Qed.

Lemma free_loop_releases l : ∀ fuel am st,
  l ≠ [] -> chain (mem st) am l -> Forall unflagged l -> separated l ->
  (length l <= fuel)%nat ->
  free_loop fuel am st =
    Done tt {| mem := sweep l (mem st); auto_allocs := auto_allocs st;
               trace := trace st ++ releases l |}.
Proof.
  induction l as [| [a n] l IH]; intros fuel am st Hne Hch Hfl Hsep Hlen; [congruence |].
  destruct fuel as [| fuel]; [simpl in Hlen; lia |].
  pose proof (chain_NoDup _ _ _ Hch) as Hnd. cbn in Hnd. apply NoDup_cons in Hnd as [Hnotin _].
  cbn [chain] in Hch. destruct Hch as (-> & Ha & Hn & Hch).
  apply Forall_cons in Hfl as [Hflag Hfl]. apply separated_tail in Hsep as [Hsep Hown].
  cbn [snd] in Hown. cbn [free_loop]. msimpl. rewrite (load_live _ _ n) by assumption.
  rewrite (owned_unflagged n) by exact Hflag.
  destruct l as [| x l].
  - cbn [chain] in Hch. rewrite Hch. cbn [Z.eqb]. unfold releases, sweep. cbn.
    now rewrite <- app_assoc.
  - rewrite (chain_next_nonnull _ _ _ _ Hch).
    rewrite IH; cbn [mem auto_allocs trace length] in *;
      [| congruence | apply chain_delete; [| apply chain_delete]; assumption
       | assumption .. | lia].
    unfold releases, sweep. cbn [flat_map foldl fst snd app].
    now rewrite <- !app_assoc.
Qed.

Lemma clear_loop_releases l : ∀ fuel am st,
  l ≠ [] -> chain (mem st) am l -> (length l <= fuel)%nat ->
  clear_loop fuel am st =
    Done tt {| mem := sweep_nodes l (mem st); auto_allocs := auto_allocs st;
               trace := trace st ++ node_releases l |}.
Proof.
  induction l as [| [a n] l IH]; intros fuel am st Hne Hch Hlen; [congruence |].
  destruct fuel as [| fuel]; [simpl in Hlen; lia |].
  pose proof (chain_NoDup _ _ _ Hch) as Hnd. cbn in Hnd. apply NoDup_cons in Hnd as [Hnotin _].
  cbn [chain] in Hch. destruct Hch as (-> & Ha & Hn & Hch).
  cbn [clear_loop]. msimpl. rewrite (load_live _ _ n) by assumption.
  destruct l as [| x l].
  - cbn [chain] in Hch. rewrite Hch. cbn [Z.eqb]. reflexivity.
  - rewrite (chain_next_nonnull _ _ _ _ Hch).
    rewrite IH; cbn [mem auto_allocs trace length] in *;
      [| congruence | now apply chain_delete | lia].
    unfold node_releases, sweep_nodes. cbn [fmap list_fmap foldl fst].
    now rewrite <- !app_assoc.
Qed.

(** The bound of the loops is never what stops them. *)
Lemma size_delete_le (m : gmap Z auto_mem) k : (size (delete k m) <= size m)%nat.
Proof. rewrite map_size_delete. destruct (m !! k); cbn; lia. Qed.

Lemma size_delete_live (m : gmap Z auto_mem) k n :
  m !! k = Some n -> (size (delete k m) < size m)%nat.
Proof.
  intros H. rewrite map_size_delete_Some by eauto.
  assert (size m ≠ 0%nat) by (eapply map_size_ne_0_lookup_2; eauto). lia.
Qed.

Lemma load_Some m a n : load m a = Some n -> m !! a = Some n.
Proof. unfold load. now destruct (a =? 0). Qed.

Lemma free_loop_bounded fuel : ∀ am st,
  (size (mem st) < fuel)%nat -> free_loop fuel am st ≠ Exhausted.
Proof.
  induction fuel as [| fuel IH]; intros am st Hlt; [lia |].
  cbn [free_loop]. msimpl. destruct (load (mem st) am) as [act |] eqn:Hld; [| discriminate].
  apply load_Some in Hld.
  destruct (next act =? 0); [discriminate |]. apply IH. cbn [mem].
  destruct (decide (pointer act = am)) as [-> | Hne].
  - pose proof (size_delete_live _ _ _ Hld). pose proof (size_delete_le (delete am (mem st)) am).
    lia.
  - pose proof (size_delete_le (mem st) (pointer act)).
    assert (Hld' : delete (pointer act) (mem st) !! am = Some act)
      by now rewrite lookup_delete_ne.
    pose proof (size_delete_live _ _ _ Hld'). lia.
Qed.

Lemma clear_loop_bounded fuel : ∀ am st,
  (size (mem st) < fuel)%nat -> clear_loop fuel am st ≠ Exhausted.
Proof.
  induction fuel as [| fuel IH]; intros am st Hlt; [lia |].
  cbn [clear_loop]. msimpl. destruct (load (mem st) am) as [act |] eqn:Hld; [| discriminate].
  apply load_Some in Hld.
  destruct (next act =? 0); [discriminate |]. apply IH. cbn [mem].
  pose proof (size_delete_live _ _ _ Hld). lia.
Qed.

Lemma ECPGfree_auto_mem_total st : ECPGfree_auto_mem st ≠ Exhausted.
Proof.
  unfold ECPGfree_auto_mem. msimpl. destruct (auto_allocs st =? 0); [discriminate |].
  destruct (load (mem st) (auto_allocs st)) as [a |] eqn:Hld; [| discriminate].
  destruct (auto_clear_disabled a).
  - rewrite Hld. cbn [mem auto_allocs trace].
    match goal with
    | |- context [free_loop ?f ?am ?s] =>
        pose proof (free_loop_bounded f am s ltac:(cbn [mem]; lia)) as Hb;
        destruct (free_loop f am s)
    end; congruence.
  - match goal with
    | |- context [free_loop ?f ?am ?s] =>
        pose proof (free_loop_bounded f am s ltac:(cbn [mem]; lia)) as Hb;
        destruct (free_loop f am s)
    end; congruence.
Qed.

Lemma ecpg_clear_auto_mem_total st : ecpg_clear_auto_mem st ≠ Exhausted.
Proof.
  unfold ecpg_clear_auto_mem. msimpl. destruct (auto_allocs st =? 0); [discriminate |].
  destruct (load (mem st) (auto_allocs st)) as [a |] eqn:Hld; [| discriminate].
  destruct (auto_clear_disabled a); [discriminate |].
  match goal with
  | |- context [clear_loop ?f ?am ?s] =>
      pose proof (clear_loop_bounded f am s ltac:(cbn [mem]; lia)) as Hb;
      destruct (clear_loop f am s)
  end; congruence.
Qed.

(** ** [ECPGfree_auto_mem] *)

Lemma unflag_head_clear l : head_flag l = false -> unflag_head l = l.
Proof.
  destruct l as [| [h n] l]; [reflexivity |]. cbn [head_flag unflag_head]. intros E.
  now rewrite <- E at 1; rewrite set_flag_id.
Qed.

Lemma separated_unflag_head l : separated l -> separated (unflag_head l).
Proof. unfold separated. now rewrite tracked_unflag_head, addrs_unflag_head. Qed.

Lemma ECPGfree_auto_mem_releases st l :
  wf st l ->
  ECPGfree_auto_mem st =
    Done tt {| mem := sweep (unflag_head l) (unflag_mem l (mem st));
               auto_allocs := 0;
               trace := trace st ++ (if head_flag l then [Log msg_reenabled] else [])
                                 ++ releases l |}.
Proof.
  intros [Hch Htl Hsep]. unfold ECPGfree_auto_mem. unfold bind at 1, get_auto_allocs.
  destruct l as [| [h n] l].
  - cbn [chain] in Hch. rewrite Hch. cbn. rewrite app_nil_r. destruct st; cbn in *.
    now subst.
  - pose proof Hch as Hch0. cbn [chain] in Hch. destruct Hch as (Hh & Hh0 & Hn & Hch).
    rewrite Hh. pose proof (load_live _ _ _ Hh0 Hn) as Hld.
    apply Z.eqb_neq in Hh0 as ->. unfold bind at 1, deref. rewrite Hld.
    assert (Hch1 : chain (unflag_mem ((h, n) :: l) (mem st)) h (unflag_head ((h, n) :: l))).
    { rewrite Hh in Hch0. now apply chain_unflag_head. }
    pose proof (chain_length _ _ _ Hch1) as Hlen.
    pose proof (unflag_head_all _ Htl) as Hall.
    pose proof (separated_unflag_head _ Hsep) as Hsep1.
    cbn [head_flag]. destruct (auto_clear_disabled n) eqn:Hflag.
    + msimpl. rewrite Hld. msimpl.
      rewrite (free_loop_releases (unflag_head ((h, n) :: l)));
        cbn [mem auto_allocs trace]; try assumption;
        [| discriminate | cbn [unflag_mem] in Hlen; lia].
      rewrite releases_unflag_head, <- app_assoc. reflexivity.
    + msimpl.
      assert (E : unflag_mem ((h, n) :: l) (mem st) = mem st).
      { cbn [unflag_mem]. apply insert_id. rewrite Hn. f_equal.
        now rewrite <- Hflag, set_flag_id. }
      rewrite E in *.
      rewrite (free_loop_releases (unflag_head ((h, n) :: l)));
        cbn [mem auto_allocs trace]; try assumption; [| discriminate | lia].
      now rewrite releases_unflag_head.
Qed.

(** ** [ecpg_clear_auto_mem] *)

Lemma ecpg_clear_auto_mem_releases st l :
  chain (mem st) (auto_allocs st) l -> head_flag l = false ->
  ecpg_clear_auto_mem st =
    Done tt {| mem := sweep_nodes l (mem st); auto_allocs := 0;
               trace := trace st ++ node_releases l |}.
Proof.
  intros Hch Hflag. unfold ecpg_clear_auto_mem. unfold bind at 1, get_auto_allocs.
  destruct l as [| [h n] l].
  - cbn [chain] in Hch. rewrite Hch. cbn. rewrite app_nil_r. destruct st; cbn in *.
    now subst.
  - pose proof (chain_length _ _ _ Hch) as Hlen.
    pose proof Hch as Hch0. cbn [chain] in Hch. destruct Hch as (Hh & Hh0 & Hn & Hch).
    rewrite Hh in *. pose proof (load_live _ _ _ Hh0 Hn) as Hld.
    apply Z.eqb_neq in Hh0 as ->. unfold bind at 1, deref. rewrite Hld.
    cbn [head_flag] in Hflag. rewrite Hflag. msimpl.
    rewrite (clear_loop_releases ((h, n) :: l)); cbn [mem auto_allocs trace];
      [reflexivity | discriminate | assumption | lia].
Qed.

Lemma ecpg_clear_auto_mem_suppressed st l :
  chain (mem st) (auto_allocs st) l -> head_flag l = true ->
  ecpg_clear_auto_mem st = Done tt (with_event (Log msg_not_freeing) st).
Proof.
  intros Hch Hflag. destruct l as [| [h n] l]; [discriminate |].
  cbn [chain] in Hch. destruct Hch as (Hh & Hh0 & Hn & Hch).
  unfold ecpg_clear_auto_mem. unfold bind at 1, get_auto_allocs.
  rewrite Hh. pose proof (load_live _ _ _ Hh0 Hn) as Hld.
  apply Z.eqb_neq in Hh0 as ->. unfold bind, deref. rewrite Hld.
  cbn [head_flag] in Hflag. rewrite Hflag. reflexivity.
Qed.

(** ** [ECPGdisable_auto_mem_clear_on_exec] *)

Lemma ECPGdisable_spec am st l :
  chain (mem st) (auto_allocs st) l -> l ≠ [] ∨ am ≠ 0 ->
  ECPGdisable_auto_mem_clear_on_exec am st =
    Done tt {| mem := disabled_mem am l (mem st);
               auto_allocs := head_addr (disabled am l);
               trace := trace st ++ [Log msg_disabling]
                          ++ (if head_flag l then [Log msg_already_disabled] else []) |}.
Proof.
  intros Hch Hok. unfold ECPGdisable_auto_mem_clear_on_exec. unfold bind at 1, get_auto_allocs.
  destruct l as [| [h n] l].
  - destruct Hok as [Hok | Ham]; [congruence |].
    cbn [chain] in Hch. rewrite Hch. cbn [Z.eqb negb]. unfold bind at 1 2 3.
    cbn [ecpg_log emit]. rewrite ecpg_alloc_block by assumption. unfold with_mem. msimpl.
    rewrite load_insert_eq, insert_insert_eq by assumption. reflexivity.
  - cbn [chain] in Hch. destruct Hch as (Hh & Hh0 & Hn & Hch). subst h.
    pose proof (load_live _ _ _ Hh0 Hn) as Hld.
    apply Z.eqb_neq in Hh0 as ->. cbn [negb]. msimpl. rewrite Hld.
    cbn [head_flag disabled head_addr disabled_mem].
    destruct (auto_clear_disabled n); msimpl; rewrite Hld; [| now rewrite app_nil_r].
    now rewrite <- app_assoc.
Qed.

Lemma chain_disabled am m a l :
  chain m a l -> l ≠ [] ∨ am ≠ 0 ->
  chain (disabled_mem am l m) (head_addr (disabled am l)) (disabled am l).
Proof.
  intros Hch Hok. destruct l as [| [h n] l].
  - destruct Hok as [Hok | Ham]; [congruence |].
    cbn. repeat split; [assumption | apply lookup_insert_eq].
  - pose proof Hch as (-> & _). cbn [disabled head_addr disabled_mem].
    eapply chain_update_head; [exact Hch | reflexivity].
Qed.

(** ** Reachable states *)

Lemma bind_Done {A B} (m : M A) (k : A -> M B) st v st' :
  bind m k st = Done v st' -> ∃ a st1, m st = Done a st1 ∧ k a st1 = Done v st'.
Proof. unfold bind. destruct (m st) as [a st1 | |]; [eauto | discriminate ..]. Qed.

Lemma ECPGfree_auto_mem_empties st v st' :
  ECPGfree_auto_mem st = Done v st' -> auto_allocs st' = 0.
Proof.
  unfold ECPGfree_auto_mem. intros H.
  apply bind_Done in H as (am & st1 & Hget & H). injection Hget as <- <-.
  destruct (Z.eqb_spec (auto_allocs st) 0) as [E | _]; [now injection H as _ <- |].
  apply bind_Done in H as (a & st1 & _ & H).
  apply bind_Done in H as (? & st2 & _ & H).
  apply bind_Done in H as (fuel & st3 & _ & H).
  apply bind_Done in H as (? & st4 & _ & H).
  now injection H as _ <-.
Qed.

Lemma ecpg_auto_alloc_null size lineno am st :
  ecpg_auto_alloc size lineno 0 am st = Done 0 (with_event (Raise_out_of_memory lineno) st).
Proof. reflexivity. Qed.

Lemma ecpg_auto_alloc_no_node size lineno ptr st :
  ptr ≠ 0 ->
  ecpg_auto_alloc size lineno ptr 0 st =
    Done 0 {| mem := delete ptr (<[ptr := zeroed]> (mem st));
              auto_allocs := auto_allocs st;
              trace := trace st ++ [Raise_out_of_memory lineno; Free ptr] |}.
Proof.
  intros Hptr. unfold ecpg_auto_alloc. unfold bind at 1.
  rewrite ecpg_alloc_block by assumption. apply Z.eqb_neq in Hptr as ->.
  unfold bind at 1. rewrite ecpg_add_mem_null. cbn [negb]. unfold with_event, with_mem.
  msimpl. now rewrite <- app_assoc.
Qed.

Lemma ECPGdisable_null_fault st :
  auto_allocs st = 0 ->
  ECPGdisable_auto_mem_clear_on_exec 0 st =
    Fault {| mem := mem st; auto_allocs := 0;
             trace := trace st ++ [Log msg_disabling; Raise_out_of_memory 0] |}.
Proof.
  intros H0. unfold ECPGdisable_auto_mem_clear_on_exec. unfold bind at 1, get_auto_allocs.
  rewrite H0. cbn [Z.eqb negb]. unfold bind at 1 2 3. cbn [ecpg_log emit].
  rewrite ecpg_alloc_null. unfold with_event. msimpl. rewrite load_null.
  now rewrite <- app_assoc.
Qed.

Lemma fresh_not_node st l a :
  chain (mem st) (auto_allocs st) l -> mem st !! a = None -> a ∉ addrs l.
Proof.
  intros Hch Hnone Hin. destruct (chain_addr_live _ _ _ _ Hch Hin) as [[n Hn] _]. congruence.
Qed.

Lemma unflagged_tail_push am ptr l : unflagged_tail l -> unflagged_tail (push am ptr l).
Proof. intros H. unfold unflagged_tail, push. cbn [tail]. now apply unflag_head_all. Qed.

Lemma unflagged_tail_disabled am l : unflagged_tail l -> unflagged_tail (disabled am l).
Proof. destruct l as [| [h n] l]; [constructor | trivial]. Qed.

Lemma classic_nonempty (l : list (Z * auto_mem)) (am : Z) :
  (l ≠ [] ∨ am ≠ 0) ∨ (l = [] ∧ am = 0).
Proof.
  destruct l; [| left; left; discriminate].
  destruct (Z.eq_dec am 0); [right | left; right]; auto.
Qed.

(** A call that returns leaves a list with the flag on the head at most. *)
Lemma exec_linked st c v st' l :
  chain (mem st) (auto_allocs st) l -> unflagged_tail l ->
  calloc_ok st c -> exec c st = Done v st' ->
  ∃ l', chain (mem st') (auto_allocs st') l' ∧ unflagged_tail l'.
Proof.
  intros Hch Htl Hok Hex.
  destruct c as [size lineno ptr am | ptr lineno am | | am |]; cbn [calloc_ok exec] in Hok, Hex;
    apply bind_Done in Hex as (r & st1 & Hex & Hret);
    injection Hret as _ ->; clear v.
  - destruct Hok as ([-> | Hptr] & Ham & Hne).
    { rewrite ecpg_auto_alloc_null in Hex. injection Hex as _ <-. now exists l. }
    destruct (Z.eq_dec ptr 0) as [-> | Hptr0].
    { rewrite ecpg_auto_alloc_null in Hex. injection Hex as _ <-. now exists l. }
    pose proof (fresh_not_node _ _ _ Hch Hptr) as Hpl.
    destruct (Z.eq_dec am 0) as [-> | Ham0].
    + rewrite ecpg_auto_alloc_no_node in Hex by assumption. injection Hex as _ <-.
      exists l. split; [| assumption]. cbn [mem auto_allocs].
      now apply chain_delete, chain_insert.
    + destruct Ham as [-> | Ham]; [congruence |].
      pose proof (fresh_not_node _ _ _ Hch Ham) as Hal.
      rewrite (ecpg_auto_alloc_push _ _ _ _ _ l) in Hex by assumption.
      injection Hex as _ <-. exists (push am ptr l). split; [| now apply unflagged_tail_push].
      cbn [mem auto_allocs]. eapply chain_push; [| assumption ..].
      apply chain_insert; eassumption.
  - destruct (Z.eq_dec am 0) as [-> | Ham0].
    + rewrite ecpg_add_mem_null in Hex. injection Hex as _ <-. now exists l.
    + destruct Hok as [-> | Ham]; [congruence |].
      pose proof (fresh_not_node _ _ _ Hch Ham) as Hal.
      rewrite (ecpg_add_mem_push _ _ _ _ l) in Hex by assumption.
      injection Hex as _ <-. exists (push am ptr l). split; [| now apply unflagged_tail_push].
      cbn [mem auto_allocs]. eapply chain_push; eassumption.
  - apply ECPGfree_auto_mem_empties in Hex. exists []. split; [exact Hex | constructor].
  - destruct (classic_nonempty l am) as [Hgo | [-> ->]].
    + rewrite (ECPGdisable_spec _ _ l) in Hex by assumption. injection Hex as _ <-.
      exists (disabled am l). split; [| now apply unflagged_tail_disabled].
      cbn [mem auto_allocs]. eapply chain_disabled; eassumption.
    + cbn [chain] in Hch. rewrite ECPGdisable_null_fault in Hex by assumption. discriminate.
  - destruct (head_flag l) eqn:Hflag.
    + rewrite (ecpg_clear_auto_mem_suppressed _ l) in Hex by assumption.
      injection Hex as _ <-. now exists l.
    + rewrite (ecpg_clear_auto_mem_releases _ l) in Hex by assumption.
      injection Hex as _ <-. exists []. split; [reflexivity | constructor].
Qed.

Lemma reachable_linked st :
  reachable st -> ∃ l, chain (mem st) (auto_allocs st) l ∧ unflagged_tail l.
Proof.
  induction 1 as [| st c v st' _ (l & Hch & Htl) Hok Hex].
  - exists []. split; [reflexivity | constructor].
  - eapply exec_linked; eassumption.
Qed.

(** ** What is left after a soft clear *)

Lemma sweep_nodes_lookup l : ∀ m k,
  sweep_nodes l m !! k = if decide (k ∈ addrs l) then None else m !! k.
Proof.
  induction l as [| [a n] l IH]; intros m k; cbn [sweep_nodes foldl addrs fmap list_fmap fst].
  - rewrite decide_False; [reflexivity | apply not_elem_of_nil].
  - fold (sweep_nodes l (delete a m)). fold (addrs l). rewrite IH.
    destruct (decide (k ∈ addrs l)) as [Hin | Hnotin].
    + rewrite decide_True; [reflexivity | now apply list_elem_of_further].
    + destruct (decide (k = a)) as [-> | Hne].
      * rewrite lookup_delete_eq, decide_True; [reflexivity | apply list_elem_of_here].
      * rewrite lookup_delete_ne by congruence.
        rewrite decide_False; [reflexivity |]. apply not_elem_of_cons. auto.
Qed.

Lemma wf_all_unflagged st l : wf st l -> head_flag l = false -> Forall unflagged l.
Proof.
  intros [_ Htl _] Hflag. destruct l as [| [h n] l]; constructor; assumption.
Qed.

Lemma separated_elem l x : separated l -> x ∈ l -> owned (snd x) ∉ addrs l.
Proof.
  unfold separated. rewrite Forall_forall. intros H Hx. apply H.
  unfold tracked. apply list_elem_of_fmap. eauto.
Qed.

Lemma wf_disabled st l am :
  wf st l -> l ≠ [] ∨ am ≠ 0 ->
  wf {| mem := disabled_mem am l (mem st);
        auto_allocs := head_addr (disabled am l);
        trace := trace st ++ [Log msg_disabling]
                   ++ (if head_flag l then [Log msg_already_disabled] else []) |}
     (disabled am l).
Proof.
  intros [Hch Htl Hsep] Hok. split; cbn [mem auto_allocs].
  - eapply chain_disabled; eassumption.
  - now apply unflagged_tail_disabled.
  - destruct l as [| [h n] l].
    + destruct Hok as [Hok | Ham]; [congruence |].
      unfold separated, tracked, addrs. cbn [disabled fmap list_fmap fst snd].
      change (owned {| word := 1; next := 0 |}) with 0.
      constructor; [| constructor].
      apply not_elem_of_cons. split; [congruence | apply not_elem_of_nil].
    + unfold separated, tracked, addrs in *. cbn [disabled fmap list_fmap fst snd] in *.
      now rewrite owned_set.
Qed.

Lemma tracked_disabled am l : l ≠ [] -> tracked (disabled am l) = tracked l.
Proof.
  destruct l as [| [h n] l]; [congruence |]. intros _.
  unfold tracked. cbn [disabled fmap list_fmap snd]. now rewrite owned_set.
Qed.

Lemma releases_disabled am l : l ≠ [] -> releases (disabled am l) = releases l.
Proof.
  destruct l as [| [h n] l]; [congruence |]. intros _.
  unfold releases. cbn [disabled flat_map fst snd]. now rewrite owned_set.
Qed.

Lemma head_flag_disabled am l : head_flag (disabled am l) = true.
Proof. destruct l as [| [h n] l]; [reflexivity | apply flag_set]. Qed.

Lemma disabled_mem_lookup am l m k :
  k ∉ addrs l -> l ≠ [] -> disabled_mem am l m !! k = m !! k.
Proof.
  destruct l as [| [h n] l]; [congruence |]. intros Hk _.
  apply not_elem_of_cons in Hk as [Hk _]. cbn [disabled_mem].
  apply lookup_insert_ne. cbn in Hk. congruence.
Qed.

(** ** Nodes stay where they are under later calls *)

Lemma unflag_head_keeps pre a n t :
  ∃ pre' n', unflag_head (pre ++ (a, n) :: t) = pre' ++ (a, n') :: t ∧ owned n' = owned n.
Proof.
  destruct pre as [| [b k] pre].
  - exists [], (set_auto_clear_disabled false n). split; [reflexivity | apply owned_set].
  - exists ((b, set_auto_clear_disabled false k) :: pre), n. now split.
Qed.

(** ** Counting calls to [free] *)

Lemma times_freed_app p t1 t2 :
  times_freed p (t1 ++ t2) = (times_freed p t1 + times_freed p t2)%nat.
Proof.
  induction t1 as [| e t1 IH]; [reflexivity |].
  destruct e as [? | ? | q]; cbn [app times_freed]; rewrite IH; [reflexivity ..|].
  now destruct (q =? p).
Qed.

Lemma times_freed_releases l p :
  p ∉ addrs l -> times_freed p (releases l) = count_occ Z.eq_dec (tracked l) p.
Proof.
  induction l as [| [a n] l IH]; intros Hp; [reflexivity |].
  apply not_elem_of_cons in Hp as [Hne Hp]. cbn [fst] in Hne.
  unfold releases, tracked in *.
  cbn [flat_map fmap list_fmap app fst snd times_freed count_occ].
  rewrite IH by assumption.
  destruct (Z.eqb_spec a p) as [-> | _]; [congruence |].
  destruct (Z.eqb_spec (owned n) p) as [E | E]; destruct (Z.eq_dec (owned n) p);
    congruence || lia.
Qed.

Lemma tracked_registrations cs : ∀ l,
  registrations l cs ->
  tracked (foldl register l cs) = rev (reg_ptr <$> cs) ++ tracked l.
Proof.
  induction cs as [| c cs IH]; intros l Hregs; [reflexivity |].
  cbn [registrations] in Hregs. destruct Hregs as (_ & Hal & _ & Hregs).
  cbn [foldl fmap list_fmap rev]. rewrite IH by assumption. rewrite <- app_assoc. f_equal.
  unfold register, push, tracked. cbn [fmap list_fmap snd app].
  fold (tracked (unflag_head l)). rewrite tracked_unflag_head.
  unfold owned at 1. cbn [word]. now rewrite owned_push_word.
Qed.

(** Releasing a well-formed list calls [free] on a tracked pointer as many
    times as the list tracks it. *)
Lemma ECPGfree_auto_mem_counts st l st' p :
  wf st l -> ECPGfree_auto_mem st = Done tt st' -> p ∈ tracked l ->
  times_freed p (trace st') = (times_freed p (trace st) + count_occ Z.eq_dec (tracked l) p)%nat.
Proof.
  intros Hwf Hfree Hp. rewrite (ECPGfree_auto_mem_releases _ _ Hwf) in Hfree.
  injection Hfree as <-. cbn [trace]. rewrite !times_freed_app.
  rewrite times_freed_releases.
  - destruct (head_flag l); cbn [times_freed]; lia.
  - pose proof (wf_sep _ _ Hwf) as Hsep. unfold separated in Hsep.
    rewrite Forall_forall in Hsep. now apply Hsep.
Qed.

(** ** Calls and their effect on the list *)

Lemma wf_memory st st' l :
  wf st l -> mem st' = mem st -> auto_allocs st' = auto_allocs st -> wf st' l.
Proof. intros [Hch Htl Hsep] Hm Ha. split; [now rewrite Hm, Ha | assumption ..]. Qed.

Lemma wf_empty st : auto_allocs st = 0 -> wf st [].
Proof. intros H. split; [exact H | constructor | constructor]. Qed.

Lemma wf_failed_payload st l q t :
  wf st l -> q ∉ addrs l ->
  wf {| mem := delete q (<[q := zeroed]> (mem st)); auto_allocs := auto_allocs st;
        trace := t |} l.
Proof.
  intros [Hch Htl Hsep] Hq. split; [| assumption ..].
  cbn [mem auto_allocs]. now apply chain_delete, chain_insert.
Qed.

(** An admissible call returns what [returns] says and leaves the list that
    [effect] says, well-formed again. *)
Lemma exec_effect st l c :
  wf st l -> admissible l c ->
  ∃ st', exec c st = Done (returns c) st' ∧ wf st' (effect c l).
Proof.
  intros Hwf Hadm. pose proof (wf_chain _ _ Hwf) as Hch.
  destruct c as [size lineno q am | ptr lineno am | | am |];
    cbn [admissible exec returns effect] in *; unfold bind.
  - destruct (Z.eqb_spec q 0) as [-> | Hq0]; cbn [orb].
    { rewrite ecpg_auto_alloc_null. eexists. split; [reflexivity |].
      now apply (wf_memory st). }
    destruct Hadm as [-> | (Hql & Hadm)]; [congruence |].
    destruct (Z.eqb_spec am 0) as [-> | Ham0].
    { rewrite ecpg_auto_alloc_no_node by assumption. eexists. split; [reflexivity |].
      now apply wf_failed_payload. }
    destruct Hadm as [-> | (Hal & Hap)]; [congruence |].
    pose proof Hap as (Ha & _).
    rewrite (ecpg_auto_alloc_push _ _ _ _ _ l) by assumption.
    eexists. split; [reflexivity |].
    exact (wf_push (with_mem (<[q := zeroed]> (mem st)) st) l am q
             (wf_calloc _ _ _ Hwf Hql) Ham0 Hal Hap).
  - destruct (Z.eqb_spec am 0) as [-> | Ham0]; cbn [negb].
    { rewrite ecpg_add_mem_null. eexists. split; [reflexivity |].
      now apply (wf_memory st). }
    destruct Hadm as [-> | (Hal & Hap)]; [congruence |].
    pose proof Hap as (Ha & _).
    rewrite (ecpg_add_mem_push _ _ _ _ l) by assumption.
    eexists. split; [reflexivity |]. now apply wf_push.
  - rewrite (ECPGfree_auto_mem_releases _ _ Hwf). eexists. split; [reflexivity |].
    now apply wf_empty.
  - rewrite (ECPGdisable_spec _ _ l) by assumption. eexists. split; [reflexivity |].
    now apply wf_disabled.
  - destruct (head_flag l) eqn:Hflag.
    + rewrite (ecpg_clear_auto_mem_suppressed _ l) by assumption.
      eexists. split; [reflexivity |]. now apply (wf_memory st).
    + rewrite (ecpg_clear_auto_mem_releases _ l) by assumption.
      eexists. split; [reflexivity |]. now apply wf_empty.
Qed.

Lemma run_effect cs : ∀ st l,
  wf st l -> all_admissible l cs ->
  ∃ st', run cs st = Done (returns <$> cs) st' ∧
         wf st' (foldl (fun l c => effect c l) l cs).
Proof.
  induction cs as [| c cs IH]; intros st l Hwf Hadm.
  - exists st. split; [reflexivity | assumption].
  - cbn [all_admissible] in Hadm. destruct Hadm as (Hc & Hadm).
    destruct (exec_effect st l c Hwf Hc) as (st1 & Hex & Hwf1).
    destruct (IH st1 _ Hwf1 Hadm) as (st2 & Hrun & Hwf2).
    exists st2. cbn [run foldl fmap list_fmap]. unfold bind. rewrite Hex, Hrun.
    split; [reflexivity | assumption].
Qed.

Lemma all_admissible_app cs1 : ∀ l cs2,
  all_admissible l (cs1 ++ cs2) ->
  all_admissible l cs1 ∧ all_admissible (foldl (fun l c => effect c l) l cs1) cs2.
Proof.
  induction cs1 as [| c cs1 IH]; intros l cs2 H; cbn [app all_admissible foldl] in *.
  - now split.
  - destruct H as (H1 & H). apply IH in H as [H2 H3].
    exact (conj (conj H1 H2) H3).
Qed.

(** Short of a clear, a node stays where it is and owns what it owned:
    only its flag may change. *)
Lemma push_keeps am ptr pre a n t :
  ∃ pre' n', push am ptr (pre ++ (a, n) :: t) = pre' ++ (a, n') :: t ∧ owned n' = owned n.
Proof.
  unfold push. destruct (unflag_head_keeps pre a n t) as (pre1 & n1 & -> & Hn1).
  eexists (_ :: pre1), n1. split; [reflexivity | assumption].
Qed.

Lemma disabled_keeps am pre a n t :
  ∃ pre' n', disabled am (pre ++ (a, n) :: t) = pre' ++ (a, n') :: t ∧ owned n' = owned n.
Proof.
  destruct pre as [| [b k] pre].
  - exists [], (set_auto_clear_disabled true n). split; [reflexivity | apply owned_set].
  - exists ((b, set_auto_clear_disabled true k) :: pre), n. now split.
Qed.

Lemma effect_keeps c pre a n t :
  clears c = false ->
  ∃ pre' n', effect c (pre ++ (a, n) :: t) = pre' ++ (a, n') :: t ∧ owned n' = owned n.
Proof.
  intros Hc. destruct c as [size lineno q am | ptr lineno am | | am |];
    cbn [clears effect] in *; try discriminate.
  - destruct ((q =? 0) || (am =? 0)); [now exists pre, n | apply push_keeps].
  - destruct (am =? 0); [now exists pre, n | apply push_keeps].
  - apply disabled_keeps.
Qed.

Lemma run_keeps cs : ∀ pre a n t,
  Forall (fun c => clears c = false) cs ->
  ∃ pre' n', foldl (fun l c => effect c l) (pre ++ (a, n) :: t) cs = pre' ++ (a, n') :: t ∧
             owned n' = owned n.
Proof.
  induction cs as [| c cs IH]; intros pre a n t Hcs.
  - exists pre, n. now split.
  - apply Forall_cons in Hcs as [Hc Hcs]. cbn [foldl].
    destruct (effect_keeps c pre a n t Hc) as (pre1 & n1 & -> & Hn1).
    destruct (IH pre1 a n1 t Hcs) as (pre2 & n2 & -> & Hn2).
    exists pre2, n2. split; [reflexivity | congruence].
Qed.

(** * The claims *)

Lemma wf_init : wf init [].
Proof. split; [reflexivity | constructor | constructor]. Qed.

(** ** C1 *)




(** ** C2 *)

(** C2: in every state a thread can reach by calls that return, the list
    behind [auto_allocs] is a chain in which no node behind the head has
    [auto_clear_disabled] set.  A successful [ecpg_add_mem] or
    [ecpg_auto_alloc] there puts the new node in front of the old list, and
    keeps this: the old head, now second, has the flag clear, and if the old
    head had the flag set the new head has it set. *)
Theorem suppress_flag_only_on_head st :
  reachable st ->
  ∃ l, chain (mem st) (auto_allocs st) l ∧ unflagged_tail l ∧
    (∀ ptr lineno am, am ≠ 0 -> mem st !! am = None ->
       ∃ st', ecpg_add_mem ptr lineno am st = Done true st' ∧
              chain (mem st') (auto_allocs st') (push am ptr l)) ∧
    (∀ size lineno ptr am,
       ptr ≠ 0 -> mem st !! ptr = None -> am ≠ 0 -> mem st !! am = None ->
       ∃ st', ecpg_auto_alloc size lineno ptr am st = Done ptr st' ∧
              chain (mem st') (auto_allocs st') (push am ptr l)) ∧
    (∀ am ptr,
       addrs (tail (push am ptr l)) = addrs l ∧
       unflagged_tail (push am ptr l) ∧
       head_flag (tail (push am ptr l)) = false ∧
       (head_flag l = true -> head_flag (push am ptr l) = true)).
Proof.
  intros Hreach. destruct (reachable_linked st Hreach) as (l & Hch & Htl).
  exists l. split; [assumption |]. split; [assumption |]. split; [| split].
  - intros ptr lineno am Ham Hfresh.
    pose proof (fresh_not_node _ _ _ Hch Hfresh) as Hnotin.
    eexists. split; [now apply (ecpg_add_mem_push _ _ _ _ l) |].
    cbn [mem auto_allocs]. eapply chain_push; eassumption.
  - intros size lineno ptr am Hptr Hpfresh Ham Hfresh.
    pose proof (fresh_not_node _ _ _ Hch Hfresh) as Hnotin.
    pose proof (fresh_not_node _ _ _ Hch Hpfresh) as Hpnotin.
    eexists. split; [now apply (ecpg_auto_alloc_push _ _ _ _ _ l) |].
    cbn [mem auto_allocs]. eapply chain_push; [| assumption ..].
    apply chain_insert; eassumption.
  - intros am ptr. unfold push at 1 3. cbn [tail].
    split; [apply addrs_unflag_head |].
    split; [now apply unflagged_tail_push |].
    split.
    + destruct l as [| [h n] l]; [reflexivity | apply flag_set].
    + intros Hflag. rewrite head_flag_push, Hflag. reflexivity.
Qed.

Lemma suppress_flag_only_on_head_witness :
  reachable {| mem := <[4096 := {| word := 1; next := 0 |}]> ∅;
               auto_allocs := 4096; trace := [Log msg_disabling] |} ∧
  ∃ l, chain (<[4096 := {| word := 1; next := 0 |}]> ∅) 4096 l ∧ unflagged_tail l ∧
       head_flag (push 4112 64 l) = true.
Proof.
  assert (Hreach : reachable {| mem := <[4096 := {| word := 1; next := 0 |}]> ∅;
                                auto_allocs := 4096; trace := [Log msg_disabling] |}).
  { apply (reachable_call init (Call_disable_auto_mem_clear_on_exec 4096) Void);
      [apply reachable_init | right; reflexivity | vm_compute; reflexivity]. }
  split; [exact Hreach |].
  destruct (suppress_flag_only_on_head _ Hreach) as (l & Hch & Htl & _ & _ & Hpush).
  exists l. split; [exact Hch |]. split; [exact Htl |].
  destruct (Hpush 4112 64) as (_ & _ & _ & Hflag). apply Hflag.
  destruct l as [| [h n] l]; cbn [chain mem auto_allocs] in Hch; [discriminate |].
  destruct Hch as (<- & _ & Hn & _). cbn [head_flag].
  rewrite lookup_insert_eq in Hn. now injection Hn as <-.
Defined.

(** ** C3 *)

(** C3: from any well-formed state, when
    [ECPGdisable_auto_mem_clear_on_exec] returns (the list is not empty, or
    the placeholder is allocated), a following [ecpg_clear_auto_mem] returns
    having done nothing but log: the memory and [auto_allocs] are untouched
    and no [free] is called, so the list still holds every tracked pointer
    (where there was a list, exactly the pointers tracked before); a following
    [ECPGfree_auto_mem] then returns, leaves [auto_allocs] at [NULL], and
    calls [free] exactly once on each tracked pointer, each followed by its
    node. *)
Theorem suppress_soft_clear_hard_clear st l am :
  wf st l -> l ≠ [] ∨ am ≠ 0 ->
  ∃ st1 st2 st3,
    ECPGdisable_auto_mem_clear_on_exec am st = Done tt st1 ∧
    ecpg_clear_auto_mem st1 = Done tt st2 ∧
    st2 = with_event (Log msg_not_freeing) st1 ∧
    wf st2 (disabled am l) ∧
    (l ≠ [] -> tracked (disabled am l) = tracked l ∧
               releases (disabled am l) = releases l) ∧
    (∀ p, p ∈ tracked l -> mem st2 !! p = mem st !! p) ∧
    ECPGfree_auto_mem st2 = Done tt st3 ∧
    auto_allocs st3 = 0 ∧
    trace st3 = trace st2 ++ [Log msg_reenabled] ++ releases (disabled am l).
Proof.
  intros Hwf Hok.
  pose proof (wf_disabled st l am Hwf Hok) as Hwf1.
  pose proof (ECPGdisable_spec am st l (wf_chain _ _ Hwf) Hok) as Hdis.
  eexists. eexists. eexists.
  split; [exact Hdis |].
  split; [apply (ecpg_clear_auto_mem_suppressed _ (disabled am l));
          [apply Hwf1 | apply head_flag_disabled] |].
  split; [reflexivity |].
  assert (Hwf2 : wf (with_event (Log msg_not_freeing)
                       {| mem := disabled_mem am l (mem st);
                          auto_allocs := head_addr (disabled am l);
                          trace := trace st ++ [Log msg_disabling]
                            ++ (if head_flag l then [Log msg_already_disabled] else []) |})
                    (disabled am l)).
  { destruct Hwf1 as [H1 H2 H3]. now split. }
  split; [exact Hwf2 |].
  split; [intros Hne; split; [now apply tracked_disabled | now apply releases_disabled] |].
  split.
  { intros p Hp. cbn [with_event mem]. destruct l as [| x l]; [inversion Hp |].
    apply disabled_mem_lookup; [| discriminate].
    pose proof (wf_sep _ _ Hwf) as Hsep. unfold separated in Hsep.
    rewrite Forall_forall in Hsep. now apply Hsep. }
  split; [apply (ECPGfree_auto_mem_releases _ _ Hwf2) |].
  split; [reflexivity |].
  cbn [trace]. now rewrite head_flag_disabled.
Qed.

Lemma suppress_soft_clear_hard_clear_witness :
  wf {| mem := <[4096 := {| word := 64; next := 0 |}]> ∅; auto_allocs := 4096; trace := [] |}
     [(4096, {| word := 64; next := 0 |})] ∧
  ∃ st1 st2 st3,
    ECPGdisable_auto_mem_clear_on_exec 0
      {| mem := <[4096 := {| word := 64; next := 0 |}]> ∅; auto_allocs := 4096; trace := [] |}
      = Done tt st1 ∧
    ecpg_clear_auto_mem st1 = Done tt st2 ∧
    mem st2 !! 4096 = Some {| word := 65; next := 0 |} ∧
    ECPGfree_auto_mem st2 = Done tt st3 ∧
    auto_allocs st3 = 0 ∧
    trace st3 = [Log msg_disabling; Log msg_not_freeing; Log msg_reenabled;
                 Free 64; Free 4096].
Proof.
  assert (Hwf : wf {| mem := <[4096 := {| word := 64; next := 0 |}]> ∅;
                      auto_allocs := 4096; trace := [] |}
                   [(4096, {| word := 64; next := 0 |})]).
  { split; [concrete | constructor |].
    constructor; [notin_list | constructor]. }
  split; [exact Hwf |].
  assert (Hne : [(4096, {| word := 64; next := 0 |})] ≠ [] ∨ 0 ≠ 0) by (left; discriminate).
  destruct (suppress_soft_clear_hard_clear _ _ 0 Hwf Hne)
    as (st1 & st2 & st3 & H1 & H2 & E & _ & _ & _ & H3 & H4 & H5).
  subst st2. exists st1, (with_event (Log msg_not_freeing) st1), st3.
  split; [exact H1 |]. split; [exact H2 |].
  vm_compute in H1. injection H1 as <-.
  split; [vm_compute; reflexivity |].
  split; [exact H3 |]. split; [exact H4 |]. rewrite H5. vm_compute. reflexivity.
Defined.

(** ** C4 *)

(** C4: from any well-formed state whose head does not carry the flag,
    [ecpg_clear_auto_mem] returns, leaves [auto_allocs] at [NULL], and calls
    [free] on exactly the nodes of the list, head first; every node is gone
    from memory, none of the pointers the nodes hold is passed to [free], and
    what those pointers point to is untouched. *)
Theorem soft_clear_frees_nodes_only st l :
  wf st l -> head_flag l = false ->
  ∃ st',
    ecpg_clear_auto_mem st = Done tt st' ∧
    auto_allocs st' = 0 ∧
    trace st' = trace st ++ node_releases l ∧
    (∀ a, a ∈ addrs l -> mem st' !! a = None) ∧
    (∀ x, x ∈ l ->
       pointer (snd x) = owned (snd x) ∧
       ¬ In (Free (pointer (snd x))) (node_releases l) ∧
       mem st' !! pointer (snd x) = mem st !! pointer (snd x)).
Proof.
  intros Hwf Hflag. eexists.
  split; [apply (ecpg_clear_auto_mem_releases _ l); [apply Hwf | assumption] |].
  split; [reflexivity |]. split; [reflexivity |]. cbn [mem]. split.
  - intros a Ha. rewrite sweep_nodes_lookup. now rewrite decide_True.
  - intros x Hx.
    pose proof (wf_all_unflagged _ _ Hwf Hflag) as Hall. rewrite Forall_forall in Hall.
    pose proof (separated_elem _ _ (wf_sep _ _ Hwf) Hx) as Hsep.
    rewrite <- (owned_unflagged (snd x)) in * by now apply Hall.
    split; [reflexivity |]. split.
    + intros Hin. apply Hsep. apply list_elem_of_In in Hin.
      unfold node_releases in Hin. apply list_elem_of_fmap in Hin as (y & Hy & Hin).
      injection Hy as ->. unfold addrs. now apply list_elem_of_fmap_2.
    + rewrite sweep_nodes_lookup. now rewrite decide_False.
Qed.

Lemma soft_clear_frees_nodes_only_witness :
  wf {| mem := <[4112 := {| word := 128; next := 4096 |}]>
                 (<[4096 := {| word := 64; next := 0 |}]> ∅);
        auto_allocs := 4112; trace := [] |}
     [(4112, {| word := 128; next := 4096 |}); (4096, {| word := 64; next := 0 |})] ∧
  ∃ st',
    ecpg_clear_auto_mem
      {| mem := <[4112 := {| word := 128; next := 4096 |}]>
                  (<[4096 := {| word := 64; next := 0 |}]> ∅);
         auto_allocs := 4112; trace := [] |} = Done tt st' ∧
    auto_allocs st' = 0 ∧
    trace st' = [Free 4112; Free 4096].
Proof.
  assert (Hwf : wf {| mem := <[4112 := {| word := 128; next := 4096 |}]>
                               (<[4096 := {| word := 64; next := 0 |}]> ∅);
                      auto_allocs := 4112; trace := [] |}
                   [(4112, {| word := 128; next := 4096 |});
                    (4096, {| word := 64; next := 0 |})]).
  { split; [concrete | constructor; [reflexivity | constructor] |].
    constructor; [notin_list | constructor; [notin_list | constructor]]. }
  split; [exact Hwf |].
  destruct (soft_clear_frees_nodes_only _ _ Hwf eq_refl) as (st' & H1 & H2 & H3 & _).
  exists st'. split; [exact H1 |]. split; [exact H2 | exact H3].
Defined.

(** ** C5 *)

(** C5 fails on the code: on a thread with no list, when the allocation of
    the placeholder fails, [ECPGdisable_auto_mem_clear_on_exec] logs, reports
    out of memory for line 0, stores [NULL] in the thread's slot, and then
    writes [am->auto_clear_disabled = 1] through the [NULL] it was handed:
    the call does not return. *)
Theorem disable_placeholder_failure_faults st :
  auto_allocs st = 0 ->
  ECPGdisable_auto_mem_clear_on_exec 0 st =
    Fault {| mem := mem st; auto_allocs := 0;
             trace := trace st ++ [Log msg_disabling; Raise_out_of_memory 0] |}.
Proof. apply ECPGdisable_null_fault. Qed.

Lemma disable_placeholder_failure_faults_witness :
  auto_allocs init = 0 ∧
  ECPGdisable_auto_mem_clear_on_exec 0 init =
    Fault {| mem := ∅; auto_allocs := 0;
             trace := [Log msg_disabling; Raise_out_of_memory 0] |}.
Proof.
  split; [reflexivity |].
  exact (disable_placeholder_failure_faults init eq_refl).
Defined.

(** ** C6 *)

(** C6: in [ecpg_auto_alloc], when [calloc] hands out a block [ptr] for the
    payload and then fails for the node, the call reports out of memory,
    passes [ptr] to [free], and returns [NULL]; the memory and [auto_allocs]
    are as they were before the call, so the list is unchanged. *)
Theorem register_new_node_failure_releases_payload st size lineno ptr :
  ptr ≠ 0 -> mem st !! ptr = None ->
  ecpg_auto_alloc size lineno ptr 0 st =
    Done 0 {| mem := mem st; auto_allocs := auto_allocs st;
              trace := trace st ++ [Raise_out_of_memory lineno; Free ptr] |}.
Proof.
  intros Hptr Hfresh. rewrite ecpg_auto_alloc_no_node by assumption.
  now rewrite delete_insert_id.
Qed.

Lemma register_new_node_failure_releases_payload_witness :
  64 ≠ 0 ∧ mem init !! 64 = None ∧
  ecpg_auto_alloc 10 7 64 0 init =
    Done 0 {| mem := ∅; auto_allocs := 0; trace := [Raise_out_of_memory 7; Free 64] |}.
Proof.
  split; [discriminate |]. split; [reflexivity |].
  exact (register_new_node_failure_releases_payload init 10 7 64
           ltac:(discriminate) eq_refl).
Defined.

(** ** C7 *)

(** C7: [ecpg_strdup(NULL, ...)] returns [NULL] and does nothing else: no
    out-of-memory report, whatever [strdup] would answer.
    [ecpg_add_mem(NULL, ...)] treats [NULL] as it treats any pointer: when
    its node is allocated it returns [true], reports nothing and puts a node
    holding [NULL] in front of the list; when the node cannot be allocated
    it does exactly what it does for any other pointer. *)
Theorem null_inputs_are_not_errors :
  (∀ lineno strdup_answer st, ecpg_strdup 0 lineno strdup_answer st = Done 0 st) ∧
  (∀ lineno am st l,
     chain (mem st) (auto_allocs st) l -> am ≠ 0 -> am ∉ addrs l ->
     ∃ st', ecpg_add_mem 0 lineno am st = Done true st' ∧
            trace st' = trace st ∧
            chain (mem st') (auto_allocs st') (push am 0 l)) ∧
  (∀ ptr lineno st, ecpg_add_mem 0 lineno 0 st = ecpg_add_mem ptr lineno 0 st).
Proof.
  split; [reflexivity |]. split; [| reflexivity].
  intros lineno am st l Hch Ham Hnotin. eexists.
  split; [now apply (ecpg_add_mem_push _ _ _ _ l) |].
  split; [reflexivity |].
  cbn [mem auto_allocs]. eapply chain_push; eassumption.
Qed.

Lemma null_inputs_are_not_errors_witness :
  ecpg_strdup 0 3 4096 init = Done 0 init ∧
  ∃ st', ecpg_add_mem 0 3 4096 init = Done true st' ∧
         trace st' = [] ∧
         chain (mem st') (auto_allocs st') [(4096, {| word := 0; next := 0 |})].
Proof.
  destruct null_inputs_are_not_errors as (Hdup & Hadd & _).
  split; [apply Hdup |].
  apply (Hadd 3 4096 init []); [reflexivity | discriminate | apply not_elem_of_nil].
Defined.

(** ** C8 *)

(** C8, as stated, fails where [calloc(1, 0)] hands out a block, as the C
    library may: [ecpg_alloc(0, 7)] then returns that block and reports
    nothing. *)
Lemma ecpg_alloc_size_zero_may_succeed :
  ∃ st', ecpg_alloc 0 7 4096 init = Done 4096 st' ∧ trace st' = [].
Proof. eexists. split; [vm_compute; reflexivity | reflexivity]. Qed.

(** C8, amended: whatever the size, zero included, [ecpg_alloc] returns what
    [calloc] answered; it reports out of memory, tagged with [lineno],
    exactly when that answer is [NULL], and reports nothing otherwise.  The
    thread's slot is not touched. *)
Theorem ecpg_alloc_reports_iff_calloc_null size lineno calloc_answer st :
  ∃ st',
    ecpg_alloc size lineno calloc_answer st = Done calloc_answer st' ∧
    trace st' = trace st ++
                  (if calloc_answer =? 0 then [Raise_out_of_memory lineno] else []) ∧
    auto_allocs st' = auto_allocs st.
Proof.
  destruct (Z.eqb_spec calloc_answer 0) as [-> | Hne].
  - eexists. split; [apply ecpg_alloc_null |]. now split.
  - eexists. split; [now apply ecpg_alloc_block |].
    split; [cbn; now rewrite app_nil_r | reflexivity].
Qed.

(** ** C9 *)

(** C9: when a first [ECPGdisable_auto_mem_clear_on_exec] returns, a second
    one returns too, with the memory and [auto_allocs] exactly as the first
    call left them - the same nodes, in the same order, holding the same
    words, the flag set on the head - and only two log entries added: the
    announcement and the warning that auto-clear was already disabled. *)
Theorem disable_twice_idempotent st l am1 am2 :
  chain (mem st) (auto_allocs st) l -> l ≠ [] ∨ am1 ≠ 0 ->
  ∃ st1 st2,
    ECPGdisable_auto_mem_clear_on_exec am1 st = Done tt st1 ∧
    ECPGdisable_auto_mem_clear_on_exec am2 st1 = Done tt st2 ∧
    chain (mem st1) (auto_allocs st1) (disabled am1 l) ∧
    head_flag (disabled am1 l) = true ∧
    mem st2 = mem st1 ∧
    auto_allocs st2 = auto_allocs st1 ∧
    trace st2 = trace st1 ++ [Log msg_disabling; Log msg_already_disabled].
Proof.
  intros Hch Hok.
  pose proof (chain_disabled am1 _ _ _ Hch Hok) as Hch1.
  eexists. eexists.
  split; [now apply (ECPGdisable_spec _ _ l) |].
  split.
  { apply (ECPGdisable_spec _ _ (disabled am1 l)); [exact Hch1 |].
    left. destruct l as [| [h n] l]; discriminate. }
  split; [exact Hch1 |]. split; [apply head_flag_disabled |].
  cbn [mem auto_allocs trace]. rewrite head_flag_disabled.
  split; [| split; [| reflexivity]].
  - destruct l as [| [h n] l]; cbn [disabled disabled_mem]; rewrite insert_insert_eq;
      [reflexivity | now rewrite set_flag_again].
  - destruct l as [| [h n] l]; reflexivity.
Qed.

Lemma disable_twice_idempotent_witness :
  chain (mem init) (auto_allocs init) [] ∧ (@nil (Z * auto_mem) ≠ [] ∨ 4096 ≠ 0) ∧
  ∃ st1 st2,
    ECPGdisable_auto_mem_clear_on_exec 4096 init = Done tt st1 ∧
    ECPGdisable_auto_mem_clear_on_exec 0 st1 = Done tt st2 ∧
    chain (mem st1) (auto_allocs st1) [(4096, {| word := 1; next := 0 |})] ∧
    mem st2 = mem st1 ∧
    auto_allocs st2 = auto_allocs st1 ∧
    trace st2 = trace st1 ++ [Log msg_disabling; Log msg_already_disabled].
Proof.
  assert (Hok : @nil (Z * auto_mem) ≠ [] ∨ 4096 ≠ 0) by (right; discriminate).
  split; [reflexivity |]. split; [exact Hok |].
  destruct (disable_twice_idempotent init [] 4096 0 eq_refl Hok)
    as (st1 & st2 & H1 & H2 & H3 & _ & H4 & H5 & H6).
  exists st1, st2. repeat (split; [assumption |]). assumption.
Defined.

(** ** C10 *)

(** C10: the registry does not deduplicate.  When [ecpg_add_mem(p, ...)]
    succeeds twice on a thread, with any calls but [ECPGfree_auto_mem] and
    [ecpg_clear_auto_mem] in between - registrations that succeed or fail,
    the disabling of auto-clear - the list has two nodes [am2] and [am1]
    that both own [p], and a following [ECPGfree_auto_mem] passes [p] to
    [free] twice: once for each of them, and once more for every other node
    that owns [p].  The pointers are heap blocks (aligned, not tracking
    nodes) and every node is a block of its own. *)
Theorem same_pointer_registered_twice_is_released_twice
    st l p lineno1 lineno2 am1 am2 mid :
  wf st l -> am1 ≠ 0 -> am2 ≠ 0 ->
  Forall (fun c => clears c = false) mid ->
  all_admissible l (Call_add_mem p lineno1 am1 :: mid ++ [Call_add_mem p lineno2 am2]) ->
  ∃ st1 st2 n1 n2 between,
    run (Call_add_mem p lineno1 am1 :: mid ++ [Call_add_mem p lineno2 am2]) st
      = Done (Bool true :: (returns <$> mid) ++ [Bool true]) st1 ∧
    chain (mem st1) (auto_allocs st1) ((am2, n2) :: between ++ (am1, n1) :: unflag_head l) ∧
    am1 ≠ am2 ∧ owned n1 = p ∧ owned n2 = p ∧
    ECPGfree_auto_mem st1 = Done tt st2 ∧
    auto_allocs st2 = 0 ∧
    times_freed p (trace st2) =
      (times_freed p (trace st1) + 2
       + count_occ Z.eq_dec (tracked between ++ tracked l) p)%nat.
Proof.
  intros Hwf Ham1 Ham2 Hmid Hadm.
  destruct (run_effect _ st l Hwf Hadm) as (st1 & Hrun & Hwf1).
  (* the two registrations succeed *)
  apply Z.eqb_neq in Ham1 as Ham1'. apply Z.eqb_neq in Ham2 as Ham2'.
  cbn [all_admissible] in Hadm. destruct Hadm as (Hadm1 & Hadm).
  apply all_admissible_app in Hadm as [_ Hlast].
  cbn [all_admissible admissible effect] in Hadm1, Hlast. rewrite Ham1' in Hlast.
  destruct Hadm1 as [-> | (Hal & _)]; [congruence |].
  destruct Hlast as ([-> | (_ & Hfresh & _)] & _); [congruence |].
  (* the shape of the final list *)
  cbn [foldl effect] in Hwf1. rewrite foldl_app in Hwf1. cbn [foldl effect] in Hwf1.
  rewrite Ham1', Ham2' in Hwf1.
  destruct (run_keeps mid [] am1
              {| word := if head_flag l then Z.setbit p 0 else p; next := head_addr l |}
              (unflag_head l) Hmid) as (pre1 & n1 & E1 & Hn1).
  change (foldl (fun l c => effect c l) (push am1 p l) mid
            = pre1 ++ (am1, n1) :: unflag_head l) in E1.
  rewrite E1 in Hwf1, Hfresh.
  unfold push in Hwf1.
  destruct (unflag_head_keeps pre1 am1 n1 (unflag_head l)) as (pre2 & n2 & E2 & Hn2).
  rewrite E2 in Hwf1.
  assert (Hown : owned n2 = p).
  { rewrite Hn2, Hn1. unfold owned. cbn [word]. now apply owned_push_word. }
  pose proof (ECPGfree_auto_mem_releases _ _ Hwf1) as Hfree.
  exists st1. eexists. exists n2. eexists. exists pre2.
  split.
  { rewrite Hrun. cbn [fmap list_fmap returns]. rewrite fmap_app. cbn [fmap list_fmap returns].
    now rewrite Ham1', Ham2'. }
  split; [apply Hwf1 |].
  split.
  { intros <-. apply Hfresh. unfold addrs. rewrite fmap_app. apply elem_of_app. right.
    apply list_elem_of_here. }
  split; [exact Hown |].
  split; [unfold owned; cbn [word]; now apply owned_push_word |].
  split; [exact Hfree |].
  split; [reflexivity |].
  rewrite (ECPGfree_auto_mem_counts _ _ _ p Hwf1 Hfree).
  - unfold tracked at 1. cbn [fmap list_fmap snd]. rewrite fmap_app. cbn [fmap list_fmap snd].
    fold (tracked pre2). fold (tracked (unflag_head l)). rewrite tracked_unflag_head.
    cbn [count_occ]. rewrite !count_occ_app. cbn [count_occ]. rewrite Hown.
    match goal with
    | |- context [Z.eq_dec (owned ?x) p] =>
        assert (Hx : owned x = p)
          by (unfold owned; cbn [word]; now apply owned_push_word);
        rewrite Hx
    end.
    destruct (Z.eq_dec p p); [lia | congruence].
  - unfold tracked. cbn [fmap list_fmap snd].
    match goal with
    | |- _ ∈ owned ?x :: _ =>
        assert (Hx : owned x = p)
          by (unfold owned; cbn [word]; now apply owned_push_word);
        rewrite Hx
    end.
    apply list_elem_of_here.
Qed.

Lemma same_pointer_registered_twice_is_released_twice_witness :
  ∃ st1 st2,
    run [Call_add_mem 64 1 4096;
         Call_disable_auto_mem_clear_on_exec 0;
         Call_auto_alloc 8 2 128 0;
         Call_add_mem 256 3 0;
         Call_add_mem 64 4 4112] init
      = Done [Bool true; Void; Ptr 0; Bool false; Bool true] st1 ∧
    times_freed 64 (trace st1) = 0%nat ∧
    ECPGfree_auto_mem st1 = Done tt st2 ∧
    times_freed 64 (trace st2) = 2%nat.
Proof.
  assert (Hmid : Forall (fun c => clears c = false)
                   [Call_disable_auto_mem_clear_on_exec 0;
                    Call_auto_alloc 8 2 128 0;
                    Call_add_mem 256 3 0])
    by (repeat constructor).
  assert (Hadm : all_admissible []
                   (Call_add_mem 64 1 4096 ::
                    [Call_disable_auto_mem_clear_on_exec 0;
                     Call_auto_alloc 8 2 128 0;
                     Call_add_mem 256 3 0] ++ [Call_add_mem 64 4 4112])).
  { cbn [app all_admissible admissible effect].
    split; [right; split; [reflexivity | unfold apart; repeat split; notin_list] |].
    split; [left; discriminate |].
    split; [right; split; [notin_list | left; reflexivity] |].
    split; [left; reflexivity |].
    split; [| exact I].
    right. split; [reflexivity | unfold apart; repeat split; notin_list]. }
  destruct (same_pointer_registered_twice_is_released_twice
              init [] 64 1 4 4096 4112 _ (wf_empty init eq_refl)
              ltac:(discriminate) ltac:(discriminate) Hmid Hadm)
    as (st1 & st2 & n1 & n2 & between & Hrun & _ & _ & _ & _ & Hfree & _ & Hcount).
  exists st1, st2.
  assert (Hst1 : times_freed 64 (trace st1) = 0%nat).
  { vm_compute in Hrun. injection Hrun as <-. reflexivity. }
  split; [exact Hrun |]. split; [exact Hst1 |]. split; [exact Hfree |].
  vm_compute in Hrun. injection Hrun as <-.
  vm_compute in Hfree. injection Hfree as <-. reflexivity.
Defined.

(** * Further properties *)

(** ** With no list *)

Lemma ECPGfree_auto_mem_nolist st : auto_allocs st = 0 -> ECPGfree_auto_mem st = Done tt st.
Proof. intros H. unfold ECPGfree_auto_mem. msimpl. now rewrite H. Qed.

Lemma ecpg_clear_auto_mem_nolist st :
  auto_allocs st = 0 -> ecpg_clear_auto_mem st = Done tt st.
Proof. intros H. unfold ecpg_clear_auto_mem. msimpl. now rewrite H. Qed.

(** ** What a release leaves in memory *)

Lemma sweep_lookup l : ∀ m k,
  sweep l m !! k = if decide (k ∈ addrs l ∨ k ∈ tracked l) then None else m !! k.
Proof.
  induction l as [| [a n] l IH]; intros m k; unfold sweep, addrs, tracked;
    cbn [foldl fmap list_fmap fst snd].
  - rewrite decide_False; [reflexivity |]. intros [H | H]; inversion H.
  - fold (sweep l (delete a (delete (owned n) m))). fold (addrs l). fold (tracked l).
    rewrite IH.
    destruct (decide (k ∈ addrs l ∨ k ∈ tracked l)) as [Hin | Hnotin].
    + rewrite decide_True; [reflexivity |].
      destruct Hin; [left | right]; now apply list_elem_of_further.
    + destruct (decide (k = a)) as [-> | Hka].
      { rewrite lookup_delete_eq, decide_True; [reflexivity | left; apply list_elem_of_here]. }
      rewrite lookup_delete_ne by congruence.
      destruct (decide (k = owned n)) as [-> | Hkn].
      { rewrite lookup_delete_eq, decide_True; [reflexivity | right; apply list_elem_of_here]. }
      rewrite lookup_delete_ne by congruence.
      rewrite decide_False; [reflexivity |].
      intros [H | H]; apply elem_of_cons in H as [H | H]; tauto.
Qed.

Lemma unflag_mem_lookup l m k : k ∉ addrs l -> unflag_mem l m !! k = m !! k.
Proof.
  destruct l as [| [h n] l]; [reflexivity |]. intros Hk.
  apply not_elem_of_cons in Hk as [Hk _]. cbn [unflag_mem]. cbn in Hk.
  apply lookup_insert_ne. congruence.
Qed.

Lemma times_freed_node_releases l p :
  p ∉ addrs l -> times_freed p (node_releases l) = 0%nat.
Proof.
  induction l as [| [a n] l IH]; intros Hp; [reflexivity |].
  apply not_elem_of_cons in Hp as [Hne Hp]. cbn [fst] in Hne.
  unfold node_releases in *. cbn [fmap list_fmap fst times_freed].
  destruct (Z.eqb_spec a p); [congruence | auto].
Qed.

Lemma tracked_not_node l p : separated l -> p ∈ tracked l -> p ∉ addrs l.
Proof. unfold separated. rewrite Forall_forall. auto. Qed.

(** ** X1 *)



(** ** X2 *)

(** X2: once [ECPGfree_auto_mem] has returned, calling it again, or calling
    [ecpg_clear_auto_mem], changes nothing: no block is freed twice. *)
Theorem release_all_again_is_a_no_op st v st' :
  ECPGfree_auto_mem st = Done v st' ->
  ECPGfree_auto_mem st' = Done tt st' ∧ ecpg_clear_auto_mem st' = Done tt st'.
Proof.
  intros H. apply ECPGfree_auto_mem_empties in H.
  split; [now apply ECPGfree_auto_mem_nolist | now apply ecpg_clear_auto_mem_nolist].
Qed.

Lemma release_all_again_is_a_no_op_witness :
  ECPGfree_auto_mem
    {| mem := <[4096 := {| word := 64; next := 0 |}]> ∅; auto_allocs := 4096; trace := [] |}
    = Done tt {| mem := ∅; auto_allocs := 0; trace := [Free 64; Free 4096] |} ∧
  ECPGfree_auto_mem {| mem := ∅; auto_allocs := 0; trace := [Free 64; Free 4096] |}
    = Done tt {| mem := ∅; auto_allocs := 0; trace := [Free 64; Free 4096] |} ∧
  ecpg_clear_auto_mem {| mem := ∅; auto_allocs := 0; trace := [Free 64; Free 4096] |}
    = Done tt {| mem := ∅; auto_allocs := 0; trace := [Free 64; Free 4096] |}.
Proof.
  assert (H : ECPGfree_auto_mem
                {| mem := <[4096 := {| word := 64; next := 0 |}]> ∅;
                   auto_allocs := 4096; trace := [] |}
              = Done tt {| mem := ∅; auto_allocs := 0; trace := [Free 64; Free 4096] |})
    by (vm_compute; reflexivity).
  split; [exact H |].
  exact (release_all_again_is_a_no_op _ _ _ H).
Defined.

(** ** X3 *)

(** X3: a soft clear hands the pointers back for good.  From a well-formed
    state whose head does not carry the flag, after [ecpg_clear_auto_mem]
    a following [ECPGfree_auto_mem] does nothing, and none of the pointers
    that were tracked has been passed to [free] by either call. *)
Theorem soft_clear_then_release_frees_no_pointer st l :
  wf st l -> head_flag l = false ->
  ∃ st1,
    ecpg_clear_auto_mem st = Done tt st1 ∧
    ECPGfree_auto_mem st1 = Done tt st1 ∧
    (∀ p, p ∈ tracked l -> times_freed p (trace st1) = times_freed p (trace st)).
Proof.
  intros Hwf Hflag. eexists.
  split; [apply (ecpg_clear_auto_mem_releases _ l); [apply Hwf | assumption] |].
  split; [now apply ECPGfree_auto_mem_nolist |].
  intros p Hp. cbn [trace]. rewrite times_freed_app, times_freed_node_releases; [lia |].
  apply tracked_not_node; [apply Hwf | assumption].
Qed.

Lemma soft_clear_then_release_frees_no_pointer_witness :
  wf {| mem := <[4096 := {| word := 64; next := 0 |}]> ∅; auto_allocs := 4096; trace := [] |}
     [(4096, {| word := 64; next := 0 |})] ∧
  ∃ st1,
    ecpg_clear_auto_mem
      {| mem := <[4096 := {| word := 64; next := 0 |}]> ∅; auto_allocs := 4096; trace := [] |}
      = Done tt st1 ∧
    ECPGfree_auto_mem st1 = Done tt st1 ∧
    times_freed 64 (trace st1) = 0%nat.
Proof.
  assert (Hwf : wf {| mem := <[4096 := {| word := 64; next := 0 |}]> ∅;
                      auto_allocs := 4096; trace := [] |}
                   [(4096, {| word := 64; next := 0 |})]).
  { split; [concrete | constructor |]. constructor; [notin_list | constructor]. }
  split; [exact Hwf |].
  destruct (soft_clear_then_release_frees_no_pointer _ _ Hwf eq_refl) as (st1 & H1 & H2 & H3).
  exists st1. split; [exact H1 |]. split; [exact H2 |].
  apply (H3 64). apply list_elem_of_In. vm_compute. auto.
Defined.

(** ** X4 *)

(** X4: suppression outlives registrations.  After
    [ECPGdisable_auto_mem_clear_on_exec], any number of successful
    registrations of aligned pointers leave the flag on the head of the
    list, which tracks the new pointers in front of the old ones, and
    [ecpg_clear_auto_mem] still does nothing but log. *)
Theorem suppression_survives_registrations st l am cs :
  wf st l -> l ≠ [] ∨ am ≠ 0 -> registrations (disabled am l) cs ->
  ∃ st1 st2,
    ECPGdisable_auto_mem_clear_on_exec am st = Done tt st1 ∧
    run cs st1 = Done (reg_result <$> cs) st2 ∧
    wf st2 (foldl register (disabled am l) cs) ∧
    head_flag (foldl register (disabled am l) cs) = true ∧
    tracked (foldl register (disabled am l) cs)
      = rev (reg_ptr <$> cs) ++ tracked (disabled am l) ∧
    ecpg_clear_auto_mem st2 = Done tt (with_event (Log msg_not_freeing) st2).
Proof.
  intros Hwf Hok Hregs.
  pose proof (wf_disabled st l am Hwf Hok) as Hwf1.
  destruct (run_registrations cs _ _ Hwf1 Hregs) as (st2 & Hrun & Hwf2 & _).
  assert (Hflag : head_flag (foldl register (disabled am l) cs) = true)
    by now rewrite head_flag_registrations, head_flag_disabled.
  eexists. exists st2.
  split; [apply (ECPGdisable_spec am st l (wf_chain _ _ Hwf) Hok) |].
  split; [exact Hrun |]. split; [exact Hwf2 |]. split; [exact Hflag |].
  split; [now apply tracked_registrations |].
  apply (ecpg_clear_auto_mem_suppressed _ _ (wf_chain _ _ Hwf2) Hflag).
Qed.

Lemma suppression_survives_registrations_witness :
  wf init [] ∧ (@nil (Z * auto_mem) ≠ [] ∨ 4096 ≠ 0) ∧
  registrations (disabled 4096 []) [Call_auto_alloc 8 1 64 4112; Call_add_mem 128 2 4128] ∧
  ∃ st1 st2,
    ECPGdisable_auto_mem_clear_on_exec 4096 init = Done tt st1 ∧
    run [Call_auto_alloc 8 1 64 4112; Call_add_mem 128 2 4128] st1
      = Done [Ptr 64; Bool true] st2 ∧
    ecpg_clear_auto_mem st2 = Done tt (with_event (Log msg_not_freeing) st2).
Proof.
  assert (Hok : @nil (Z * auto_mem) ≠ [] ∨ 4096 ≠ 0) by (right; discriminate).
  assert (Hregs : registrations (disabled 4096 [])
                    [Call_auto_alloc 8 1 64 4112; Call_add_mem 128 2 4128]).
  { cbn [disabled]. concrete. }
  split; [exact wf_init |]. split; [exact Hok |]. split; [exact Hregs |].
  destruct (suppression_survives_registrations init [] 4096 _ wf_init Hok Hregs)
    as (st1 & st2 & H1 & H2 & _ & _ & _ & H3).
  exists st1, st2. split; [exact H1 |]. split; [exact H2 | exact H3].
Defined.

(** ** X5 *)

(** X5: suppression ends with [ECPGfree_auto_mem].  After it has released a
    well-formed list, flagged or not, a pointer registered next is under
    auto-clear again: [ecpg_clear_auto_mem] frees its node, and only that,
    and empties the list. *)
Theorem release_all_ends_suppression st l p lineno am :
  wf st l -> aligned p -> am ≠ 0 ->
  ∃ st1 st2 st3,
    ECPGfree_auto_mem st = Done tt st1 ∧
    ecpg_add_mem p lineno am st1 = Done true st2 ∧
    ecpg_clear_auto_mem st2 = Done tt st3 ∧
    auto_allocs st3 = 0 ∧
    trace st3 = trace st1 ++ [Free am].
Proof.
  intros Hwf Hal Ham. eexists. eexists. eexists.
  split; [apply (ECPGfree_auto_mem_releases _ _ Hwf) |].
  split; [apply (ecpg_add_mem_push _ _ _ _ []); [reflexivity | assumption |];
          apply not_elem_of_nil |].
  split.
  { apply (ecpg_clear_auto_mem_releases _ (push am p [])); cbn [mem auto_allocs].
    - eapply chain_push; [reflexivity | assumption | apply not_elem_of_nil].
    - rewrite head_flag_push. cbn [head_flag orb]. exact Hal. }
  split; reflexivity.
Qed.

Lemma release_all_ends_suppression_witness :
  wf {| mem := <[4096 := {| word := 65; next := 0 |}]> ∅; auto_allocs := 4096; trace := [] |}
     [(4096, {| word := 65; next := 0 |})] ∧
  aligned 128 ∧ 4112 ≠ 0 ∧
  ∃ st1 st2 st3,
    ECPGfree_auto_mem
      {| mem := <[4096 := {| word := 65; next := 0 |}]> ∅; auto_allocs := 4096; trace := [] |}
      = Done tt st1 ∧
    ecpg_add_mem 128 7 4112 st1 = Done true st2 ∧
    ecpg_clear_auto_mem st2 = Done tt st3 ∧
    auto_allocs st3 = 0 ∧
    trace st3 = trace st1 ++ [Free 4112].
Proof.
  assert (Hwf : wf {| mem := <[4096 := {| word := 65; next := 0 |}]> ∅;
                      auto_allocs := 4096; trace := [] |}
                   [(4096, {| word := 65; next := 0 |})]).
  { split; [concrete | constructor |]. constructor; [notin_list | constructor]. }
  assert (Hal : aligned 128) by reflexivity.
  assert (Ham : 4112 ≠ 0) by discriminate.
  split; [exact Hwf |]. split; [exact Hal |]. split; [exact Ham |].
  exact (release_all_ends_suppression _ _ 128 7 4112 Hwf Hal Ham).
Defined.

(** ** X6 *)

(** X6: a pointer whose low bit is set switches auto-clear off by accident.
    After a successful [ecpg_add_mem] of such a pointer the head reads as
    flagged, and [ecpg_clear_auto_mem] does nothing but log. *)
Theorem odd_pointer_suppresses_auto_clear st l ptr lineno am :
  chain (mem st) (auto_allocs st) l -> am ≠ 0 -> am ∉ addrs l ->
  Z.testbit ptr 0 = true ->
  ∃ st1,
    ecpg_add_mem ptr lineno am st = Done true st1 ∧
    chain (mem st1) (auto_allocs st1) (push am ptr l) ∧
    head_flag (push am ptr l) = true ∧
    ecpg_clear_auto_mem st1 = Done tt (with_event (Log msg_not_freeing) st1).
Proof.
  intros Hch Ham Hnotin Hodd.
  assert (Hflag : head_flag (push am ptr l) = true)
    by (rewrite head_flag_push, Hodd; apply orb_true_r).
  eexists. split; [now apply (ecpg_add_mem_push _ _ _ _ l) |].
  assert (Hch1 : chain (<[am := {| word := if head_flag l then Z.setbit ptr 0 else ptr;
                                   next := head_addr l |}]> (unflag_mem l (mem st)))
                       am (push am ptr l))
    by (eapply chain_push; eassumption).
  split; [exact Hch1 |]. split; [exact Hflag |].
  now apply (ecpg_clear_auto_mem_suppressed _ (push am ptr l)).
Qed.

Lemma odd_pointer_suppresses_auto_clear_witness :
  chain (mem init) (auto_allocs init) [] ∧ 4096 ≠ 0 ∧ (4096 ∉ addrs []) ∧
  Z.testbit 5 0 = true ∧
  ∃ st1,
    ecpg_add_mem 5 1 4096 init = Done true st1 ∧
    ecpg_clear_auto_mem st1 = Done tt (with_event (Log msg_not_freeing) st1).
Proof.
  assert (Ham : 4096 ≠ 0) by discriminate.
  assert (Hnotin : 4096 ∉ addrs []) by apply not_elem_of_nil.
  split; [reflexivity |]. split; [exact Ham |]. split; [exact Hnotin |].
  split; [reflexivity |].
  destruct (odd_pointer_suppresses_auto_clear init [] 5 1 4096 eq_refl Ham Hnotin eq_refl)
    as (st1 & H1 & _ & _ & H2).
  exists st1. split; [exact H1 | exact H2].
Defined.

(** ** X7 *)

Lemma exec_auto_alloc_eq size lineno q am st r st' :
  ecpg_auto_alloc size lineno q am st = Done r st' ->
  exec (Call_auto_alloc size lineno q am) st = Done (Ptr r) st'.
Proof. intros H. cbn [exec]. unfold bind. now rewrite H. Qed.

Lemma exec_add_mem_eq ptr lineno am st b st' :
  ecpg_add_mem ptr lineno am st = Done b st' ->
  exec (Call_add_mem ptr lineno am) st = Done (Bool b) st'.
Proof. intros H. cbn [exec]. unfold bind. now rewrite H. Qed.

(** X7: the registry's own accesses to its nodes.  A call ends in [Fault]
    when it reads or writes through a pointer that is no live node: [NULL],
    a node already given to [free], any other address.  From a well-formed
    state, with [calloc] answering [NULL] or a block that is not live, that
    happens in exactly one case: [ECPGdisable_auto_mem_clear_on_exec] on a
    thread with no list when the placeholder cannot be allocated.  In every
    other case each node the call reads or writes is live at that moment
    and the loops end.  Nothing is said of the blocks passed to [free]:
    whether [free] accepts them is up to the caller who registered them. *)
Theorem nodes_are_live_when_accessed st l c :
  wf st l -> calloc_ok st c ->
  match exec c st with
  | Fault _ => l = [] ∧ c = Call_disable_auto_mem_clear_on_exec 0
  | Done _ _ => ¬ (l = [] ∧ c = Call_disable_auto_mem_clear_on_exec 0)
  | Exhausted => False
  end.
Proof.
  intros Hwf Hok. pose proof (wf_chain _ _ Hwf) as Hch.
  destruct c as [size lineno q am | ptr lineno am | | am |]; cbn [calloc_ok] in Hok.
  - assert (H : ∃ r st', ecpg_auto_alloc size lineno q am st = Done r st').
    { destruct Hok as (Hq & Ham & Hne).
      destruct (Z.eq_dec q 0) as [-> | Hq0].
      { eexists. eexists. apply ecpg_auto_alloc_null. }
      destruct Hq as [-> | Hq]; [congruence |].
      destruct (Z.eq_dec am 0) as [-> | Ham0].
      { eexists. eexists. now apply ecpg_auto_alloc_no_node. }
      destruct Ham as [-> | Ham]; [congruence |].
      eexists. eexists.
      apply (ecpg_auto_alloc_push _ _ _ _ _ l); try assumption;
        eapply fresh_not_node; eassumption. }
    destruct H as (r & st' & H). rewrite (exec_auto_alloc_eq _ _ _ _ _ _ _ H).
    intros [_ Hc]. discriminate Hc.
  - assert (H : ∃ b st', ecpg_add_mem ptr lineno am st = Done b st').
    { destruct (Z.eq_dec am 0) as [-> | Ham0].
      { eexists. eexists. apply ecpg_add_mem_null. }
      destruct Hok as [-> | Ham]; [congruence |].
      eexists. eexists.
      apply (ecpg_add_mem_push _ _ _ _ l); try assumption.
      eapply fresh_not_node; eassumption. }
    destruct H as (b & st' & H). rewrite (exec_add_mem_eq _ _ _ _ _ _ H).
    intros [_ Hc]. discriminate Hc.
  - cbn [exec]. unfold bind. rewrite (ECPGfree_auto_mem_releases _ _ Hwf).
    intros [_ Hc]. discriminate Hc.
  - cbn [exec]. unfold bind.
    destruct (classic_nonempty l am) as [Hgo | [-> ->]].
    + rewrite (ECPGdisable_spec _ _ l) by assumption.
      intros [-> Hc]. injection Hc as ->. destruct Hgo as [Hgo | Hgo]; congruence.
    + cbn [chain] in Hch. rewrite ECPGdisable_null_fault by assumption. now split.
  - cbn [exec]. unfold bind.
    destruct (head_flag l) eqn:Hflag.
    + rewrite (ecpg_clear_auto_mem_suppressed _ l) by assumption.
      intros [_ Hc]. discriminate Hc.
    + rewrite (ecpg_clear_auto_mem_releases _ l) by assumption.
      intros [_ Hc]. discriminate Hc.
Qed.

Lemma nodes_are_live_when_accessed_witness :
  wf init [] ∧ calloc_ok init (Call_disable_auto_mem_clear_on_exec 0) ∧
  calloc_ok init (Call_add_mem 64 1 0) ∧
  (∃ st', exec (Call_disable_auto_mem_clear_on_exec 0) init = Fault st') ∧
  (∃ v st', exec (Call_add_mem 64 1 0) init = Done v st').
Proof.
  assert (H1 : calloc_ok init (Call_disable_auto_mem_clear_on_exec 0)) by (left; reflexivity).
  assert (H2 : calloc_ok init (Call_add_mem 64 1 0)) by (left; reflexivity).
  split; [exact wf_init |]. split; [exact H1 |]. split; [exact H2 |]. split.
  - pose proof (nodes_are_live_when_accessed init [] _ wf_init H1) as H.
    destruct (exec (Call_disable_auto_mem_clear_on_exec 0) init) as [v st' | st' |] eqn:E.
    + exfalso. apply H. now split.
    + exists st'. reflexivity.
    + destruct H.
  - pose proof (nodes_are_live_when_accessed init [] _ wf_init H2) as H.
    destruct (exec (Call_add_mem 64 1 0) init) as [v st' | st' |] eqn:E.
    + exists v, st'. reflexivity.
    + destruct H as [_ H]. discriminate H.
    + destruct H.
Defined.

(** ** X8 *)

(** X8: no premature free.  From a well-formed state, no call other than
    [ECPGfree_auto_mem] passes a tracked pointer to [free]: registrations,
    failed or not, the disabling and the soft clear leave the number of
    [free] calls on every tracked pointer as it was.  ([calloc] is taken not
    to hand out a block that the list tracks.) *)
Theorem only_release_all_frees_tracked_pointers st l c v st' p :
  wf st l -> calloc_ok st c -> c ≠ Call_free_auto_mem ->
  match c with
  | Call_auto_alloc _ _ q _ => q ∉ tracked l
  | _ => True
  end ->
  exec c st = Done v st' -> p ∈ tracked l ->
  times_freed p (trace st') = times_freed p (trace st).
Proof.
  intros Hwf Hok Hc Hq Hex Hp. pose proof (wf_chain _ _ Hwf) as Hch.
  destruct c as [size lineno q am | ptr lineno am | | am |]; cbn [calloc_ok exec] in Hok, Hex;
    [ | | congruence | | ];
    apply bind_Done in Hex as (r & st1 & Hex & Hret); injection Hret as _ ->.
  - destruct Hok as (Hfq & Ham & Hne).
    destruct (Z.eq_dec q 0) as [-> | Hq0].
    { rewrite ecpg_auto_alloc_null in Hex. injection Hex as _ <-.
      cbn [with_event trace]. rewrite times_freed_app. cbn. lia. }
    destruct Hfq as [-> | Hfq]; [congruence |].
    destruct (Z.eq_dec am 0) as [-> | Ham0].
    + rewrite ecpg_auto_alloc_no_node in Hex by assumption. injection Hex as _ <-.
      cbn [trace]. rewrite times_freed_app. cbn [times_freed].
      destruct (Z.eqb_spec q p) as [-> | _]; [contradiction | lia].
    + destruct Ham as [-> | Ham]; [congruence |].
      rewrite (ecpg_auto_alloc_push _ _ _ _ _ l) in Hex
        by (try assumption; eapply fresh_not_node; eassumption).
      now injection Hex as _ <-.
  - destruct (Z.eq_dec am 0) as [-> | Ham0].
    + rewrite ecpg_add_mem_null in Hex. injection Hex as _ <-.
      cbn [with_event trace]. rewrite times_freed_app. cbn. lia.
    + destruct Hok as [-> | Ham]; [congruence |].
      rewrite (ecpg_add_mem_push _ _ _ _ l) in Hex
        by (try assumption; eapply fresh_not_node; eassumption).
      now injection Hex as _ <-.
  - destruct (classic_nonempty l am) as [Hgo | [-> ->]].
    + rewrite (ECPGdisable_spec _ _ l) in Hex by assumption. injection Hex as _ <-.
      cbn [trace]. rewrite !times_freed_app. destruct (head_flag l); cbn; lia.
    + cbn [chain] in Hch. rewrite ECPGdisable_null_fault in Hex by assumption. discriminate.
  - destruct (head_flag l) eqn:Hflag.
    + rewrite (ecpg_clear_auto_mem_suppressed _ l) in Hex by assumption.
      injection Hex as _ <-. cbn [with_event trace]. rewrite times_freed_app. cbn. lia.
    + rewrite (ecpg_clear_auto_mem_releases _ l) in Hex by assumption.
      injection Hex as _ <-. cbn [trace].
      rewrite times_freed_app, times_freed_node_releases; [lia |].
      apply tracked_not_node; [apply Hwf | assumption].
Qed.

Lemma only_release_all_frees_tracked_pointers_witness :
  wf {| mem := <[4096 := {| word := 64; next := 0 |}]> ∅; auto_allocs := 4096; trace := [] |}
     [(4096, {| word := 64; next := 0 |})] ∧
  exec (Call_auto_alloc 8 3 128 0)
    {| mem := <[4096 := {| word := 64; next := 0 |}]> ∅; auto_allocs := 4096; trace := [] |}
    = Done (Ptr 0)
        {| mem := <[4096 := {| word := 64; next := 0 |}]> ∅; auto_allocs := 4096;
           trace := [Raise_out_of_memory 3; Free 128] |} ∧
  64 ∈ tracked [(4096, {| word := 64; next := 0 |})] ∧
  times_freed 64 [Raise_out_of_memory 3; Free 128] = times_freed 64 [].
Proof.
  assert (Hwf : wf {| mem := <[4096 := {| word := 64; next := 0 |}]> ∅;
                      auto_allocs := 4096; trace := [] |}
                   [(4096, {| word := 64; next := 0 |})]).
  { split; [concrete | constructor |]. constructor; [notin_list | constructor]. }
  assert (Hex : exec (Call_auto_alloc 8 3 128 0)
                  {| mem := <[4096 := {| word := 64; next := 0 |}]> ∅;
                     auto_allocs := 4096; trace := [] |}
                = Done (Ptr 0)
                    {| mem := <[4096 := {| word := 64; next := 0 |}]> ∅; auto_allocs := 4096;
                       trace := [Raise_out_of_memory 3; Free 128] |})
    by (vm_compute; reflexivity).
  assert (Hp : 64 ∈ tracked [(4096, {| word := 64; next := 0 |})])
    by (apply list_elem_of_In; vm_compute; auto).
  assert (Hok : calloc_ok
                  {| mem := <[4096 := {| word := 64; next := 0 |}]> ∅;
                     auto_allocs := 4096; trace := [] |}
                  (Call_auto_alloc 8 3 128 0)).
  { split; [right; vm_compute; reflexivity |]. split; [now left | discriminate]. }
  assert (Hne : Call_auto_alloc 8 3 128 0 ≠ Call_free_auto_mem) by discriminate.
  assert (Hq : 128 ∉ tracked [(4096, {| word := 64; next := 0 |})]) by notin_list.
  split; [exact Hwf |]. split; [exact Hex |]. split; [exact Hp |].
  exact (only_release_all_frees_tracked_pointers _ _ _ _ _ 64 Hwf Hok Hne Hq Hex Hp).
Defined.

(** ** X9 *)

(** X9: [ecpg_auto_alloc] is all or nothing.  With [calloc] answering [NULL]
    or a block that is not live, it returns a pointer exactly when both of
    its allocations succeed; then the pointer is the payload block, nothing
    is reported, and its node is the new head of the list.  Otherwise it
    returns [NULL] after one out-of-memory report, and memory and
    [auto_allocs] are as before the call: nothing is linked and the payload,
    if one was allocated, has been passed to [free]. *)
Theorem ecpg_auto_alloc_all_or_nothing st l size lineno q am :
  chain (mem st) (auto_allocs st) l ->
  calloc_ok st (Call_auto_alloc size lineno q am) ->
  ∃ r st',
    ecpg_auto_alloc size lineno q am st = Done r st' ∧
    (r ≠ 0 ↔ q ≠ 0 ∧ am ≠ 0) ∧
    (r ≠ 0 ->
       r = q ∧ trace st' = trace st ∧
       chain (mem st') (auto_allocs st') (push am q l)) ∧
    (r = 0 ->
       mem st' = mem st ∧ auto_allocs st' = auto_allocs st ∧
       trace st' = trace st ++ Raise_out_of_memory lineno
                     :: (if q =? 0 then [] else [Free q])).
Proof.
  intros Hch (Hq & Ham & Hne).
  destruct (Z.eq_dec q 0) as [-> | Hq0].
  { eexists. eexists. split; [apply ecpg_auto_alloc_null |].
    split; [split; [congruence | tauto] |]. split; [congruence |].
    intros _. now repeat split. }
  destruct Hq as [-> | Hq]; [congruence |].
  apply Z.eqb_neq in Hq0 as Hq0'.
  destruct (Z.eq_dec am 0) as [-> | Ham0].
  { eexists. eexists. split; [now apply ecpg_auto_alloc_no_node |].
    split; [split; [congruence | tauto] |]. split; [congruence |].
    intros _. cbn [mem auto_allocs trace]. rewrite Hq0'.
    split; [now apply delete_insert_id | now split]. }
  destruct Ham as [-> | Ham]; [congruence |].
  pose proof (fresh_not_node _ _ _ Hch Hq) as Hql.
  pose proof (fresh_not_node _ _ _ Hch Ham) as Haml.
  eexists. eexists. split; [now apply (ecpg_auto_alloc_push _ _ _ _ _ l) |].
  split; [tauto |]. split; [| congruence].
  intros _. split; [reflexivity |]. split; [reflexivity |].
  cbn [mem auto_allocs]. eapply chain_push; [| assumption ..].
  apply chain_insert; eassumption.
Qed.

Lemma ecpg_auto_alloc_all_or_nothing_witness :
  chain (mem init) (auto_allocs init) [] ∧
  calloc_ok init (Call_auto_alloc 8 1 64 4096) ∧
  ∃ r st',
    ecpg_auto_alloc 8 1 64 4096 init = Done r st' ∧
    (r ≠ 0 ↔ 64 ≠ 0 ∧ 4096 ≠ 0) ∧
    (r ≠ 0 ->
       r = 64 ∧ trace st' = [] ∧
       chain (mem st') (auto_allocs st') [(4096, {| word := 64; next := 0 |})]).
Proof.
  assert (Hok : calloc_ok init (Call_auto_alloc 8 1 64 4096)).
  { split; [now right |]. split; [now right | discriminate]. }
  split; [reflexivity |]. split; [exact Hok |].
  destruct (ecpg_auto_alloc_all_or_nothing init [] 8 1 64 4096 eq_refl Hok)
    as (r & st' & H1 & H2 & H3 & _).
  exists r, st'. split; [exact H1 |]. split; [exact H2 | exact H3].
Defined.

(** ** X10 *)

(** X10: [ecpg_strdup] returns [NULL] exactly when the string is [NULL] or
    [strdup] fails, and otherwise the copy; it reports out of memory
    exactly when the string is not [NULL] and [strdup] fails, so a [NULL]
    result without a report means the string was [NULL].  It touches
    neither the memory of the registry nor the thread's slot. *)
Theorem ecpg_strdup_null_result string lineno strdup_answer st :
  ∃ r st',
    ecpg_strdup string lineno strdup_answer st = Done r st' ∧
    (r = 0 ↔ string = 0 ∨ strdup_answer = 0) ∧
    (r ≠ 0 -> r = strdup_answer) ∧
    (trace st' = trace st ++ [Raise_out_of_memory lineno] ∧ string ≠ 0 ∧ strdup_answer = 0
     ∨ trace st' = trace st ∧ (string = 0 ∨ strdup_answer ≠ 0)) ∧
    mem st' = mem st ∧ auto_allocs st' = auto_allocs st.
Proof.
  unfold ecpg_strdup.
  destruct (Z.eqb_spec string 0) as [-> | Hs].
  { eexists. eexists. split; [reflexivity |]. split; [tauto |]. split; [congruence |].
    split; [right; auto | now split]. }
  destruct (Z.eqb_spec strdup_answer 0) as [-> | Ha].
  { eexists. eexists. split; [reflexivity |]. split; [tauto |]. split; [congruence |].
    split; [left; auto | now split]. }
  eexists. eexists. split; [reflexivity |].
  split; [split; [congruence | tauto] |]. split; [reflexivity |].
  split; [right; auto | now split].
Qed.

Lemma ecpg_strdup_null_result_witness :
  ∃ r st',
    ecpg_strdup 4096 9 0 init = Done r st' ∧
    (r = 0 ↔ 4096 = 0 ∨ 0 = 0) ∧
    (trace st' = [Raise_out_of_memory 9] ∧ 4096 ≠ 0 ∧ 0 = 0
     ∨ trace st' = [] ∧ (4096 = 0 ∨ 0 ≠ 0)).
Proof.
  destruct (ecpg_strdup_null_result 4096 9 0 init) as (r & st' & H1 & H2 & _ & H3 & _).
  exists r, st'. split; [exact H1 |]. split; [exact H2 | exact H3].
Defined.

(** ** X12 *)

Lemma ecpg_realloc_eq ptr size lineno a st :
  ecpg_realloc ptr size lineno a st =
    Done (ra_new a)
      {| mem := if ra_new a =? 0
                then (if ra_released a then delete ptr (mem st) else mem st)
                else <[ra_new a := default (ra_fill a) (load (mem st) ptr)]>
                       (if ra_released a then delete ptr (mem st) else mem st);
         auto_allocs := auto_allocs st;
         trace := trace st ++ (if ra_new a =? 0 then [Raise_out_of_memory lineno] else []) |}.
Proof.
  unfold ecpg_realloc, realloc. msimpl.
  destruct (Z.eqb_spec (ra_new a) 0) as [-> | _]; cbn [mem auto_allocs trace].
  - reflexivity.
  - now rewrite app_nil_r.
Qed.

Lemma chain_realloc m h l ptr (a : realloc_answer) x :
  chain m h l -> ra_new a ∉ addrs l -> (ra_released a = true -> ptr ∉ addrs l) ->
  chain (if ra_new a =? 0
         then (if ra_released a then delete ptr m else m)
         else <[ra_new a := x]> (if ra_released a then delete ptr m else m)) h l.
Proof.
  intros Hch Hnew Hrel.
  assert (Hch1 : chain (if ra_released a then delete ptr m else m) h l).
  { destruct (ra_released a); [apply chain_delete; auto | assumption]. }
  destruct (ra_new a =? 0); [assumption | now apply chain_insert].
Qed.

Lemma wf_realloc st l ptr (a : realloc_answer) x t :
  wf st l -> ra_new a ∉ addrs l -> (ra_released a = true -> ptr ∉ addrs l) ->
  wf {| mem := if ra_new a =? 0
               then (if ra_released a then delete ptr (mem st) else mem st)
               else <[ra_new a := x]>
                      (if ra_released a then delete ptr (mem st) else mem st);
        auto_allocs := auto_allocs st; trace := t |} l.
Proof.
  intros [Hch Htl Hsep] Hnew Hrel. split; [| assumption ..].
  cbn [mem auto_allocs]. now apply chain_realloc.
Qed.

(** X12: [ecpg_realloc] returns what [realloc] answered, reports out of
    memory exactly when that is [NULL], never calls [free], and does not
    tell the registry: when [realloc] neither hands out nor releases a
    tracking node, [auto_allocs] and the list - nodes, order, tracked
    pointers, flag - are exactly as before. *)
Theorem ecpg_realloc_leaves_the_list st l ptr size lineno a :
  wf st l -> ra_new a ∉ addrs l -> (ra_released a = true -> ptr ∉ addrs l) ->
  ∃ st',
    ecpg_realloc ptr size lineno a st = Done (ra_new a) st' ∧
    wf st' l ∧
    auto_allocs st' = auto_allocs st ∧
    trace st' = trace st ++ (if ra_new a =? 0 then [Raise_out_of_memory lineno] else []).
Proof.
  intros Hwf Hnew Hrel. eexists. split; [apply ecpg_realloc_eq |].
  split; [now apply wf_realloc | now split].
Qed.

Lemma ecpg_realloc_leaves_the_list_witness :
  wf {| mem := <[64 := zeroed]> (<[4096 := {| word := 64; next := 0 |}]> ∅);
        auto_allocs := 4096; trace := [] |}
     [(4096, {| word := 64; next := 0 |})] ∧
  ∃ st',
    ecpg_realloc 64 32 5 {| ra_new := 0; ra_released := false; ra_fill := zeroed |}
      {| mem := <[64 := zeroed]> (<[4096 := {| word := 64; next := 0 |}]> ∅);
         auto_allocs := 4096; trace := [] |} = Done 0 st' ∧
    wf st' [(4096, {| word := 64; next := 0 |})] ∧
    auto_allocs st' = 4096 ∧
    trace st' = [Raise_out_of_memory 5].
Proof.
  assert (Hwf : wf {| mem := <[64 := zeroed]> (<[4096 := {| word := 64; next := 0 |}]> ∅);
                      auto_allocs := 4096; trace := [] |}
                   [(4096, {| word := 64; next := 0 |})]).
  { split; [concrete | constructor |]. constructor; [notin_list | constructor]. }
  split; [exact Hwf |].
  apply (ecpg_realloc_leaves_the_list _ _ 64 32 5
           {| ra_new := 0; ra_released := false; ra_fill := zeroed |} Hwf);
    [notin_list | discriminate].
Defined.

(** ** X13 *)

(** X13: a tracked pointer that [ecpg_realloc] moves stays tracked under
    its old address.  When [realloc] releases the tracked block [p] and
    hands out a new block elsewhere, the block at [p] is gone after
    [ecpg_realloc], yet the list still tracks [p]: [ECPGfree_auto_mem] then
    calls [free] on [p] once for every node that tracks it, never calls
    [free] on the new block, and the new block is still live afterwards. *)
Theorem realloc_moved_pointer_stays_tracked st l p size lineno a :
  wf st l -> p ∈ tracked l ->
  ra_new a ≠ 0 -> ra_released a = true ->
  ra_new a ∉ addrs l -> ra_new a ∉ tracked l ->
  ∃ st1 st2,
    ecpg_realloc p size lineno a st = Done (ra_new a) st1 ∧
    mem st1 !! p = None ∧
    wf st1 l ∧
    ECPGfree_auto_mem st1 = Done tt st2 ∧
    times_freed p (trace st2)
      = (times_freed p (trace st) + count_occ Z.eq_dec (tracked l) p)%nat ∧
    (0 < count_occ Z.eq_dec (tracked l) p)%nat ∧
    times_freed (ra_new a) (trace st2) = times_freed (ra_new a) (trace st) ∧
    is_Some (mem st2 !! ra_new a).
Proof.
  intros Hwf Hp Hnew Hrel Hna Hnt.
  pose proof (tracked_not_node _ _ (wf_sep _ _ Hwf) Hp) as Hpa.
  assert (Hne : ra_new a ≠ p) by (intros E; rewrite E in Hnt; contradiction).
  pose proof (ecpg_realloc_eq p size lineno a st) as Hre.
  pose proof (wf_realloc st l p a (default (ra_fill a) (load (mem st) p))
                (trace st ++ (if ra_new a =? 0 then [Raise_out_of_memory lineno] else []))
                Hwf Hna (fun _ => Hpa)) as Hwf1.
  pose proof (ECPGfree_auto_mem_releases _ _ Hwf1) as Hfree.
  apply Z.eqb_neq in Hnew as Hnew'. rewrite Hnew', Hrel in *.
  eexists. eexists. split; [exact Hre |]. cbn [mem].
  split; [now rewrite lookup_insert_ne, lookup_delete_eq |].
  split; [exact Hwf1 |]. split; [exact Hfree |].
  split.
  { rewrite (ECPGfree_auto_mem_counts _ _ _ p Hwf1 Hfree Hp). cbn [trace].
    now rewrite app_nil_r. }
  split; [apply count_occ_In; now apply list_elem_of_In |].
  split.
  { cbn [trace]. rewrite app_nil_r, !times_freed_app, times_freed_releases by assumption.
    assert (count_occ Z.eq_dec (tracked l) (ra_new a) = 0%nat) as ->.
    { apply count_occ_not_In. intros Hin. apply Hnt. now apply list_elem_of_In. }
    destruct (head_flag l); cbn [times_freed]; lia. }
  cbn [mem]. rewrite sweep_lookup, addrs_unflag_head, tracked_unflag_head.
  rewrite decide_False by tauto. rewrite unflag_mem_lookup by assumption.
  rewrite lookup_insert_eq. eauto.
Qed.

Lemma realloc_moved_pointer_stays_tracked_witness :
  wf {| mem := <[64 := zeroed]> (<[4096 := {| word := 64; next := 0 |}]> ∅);
        auto_allocs := 4096; trace := [] |}
     [(4096, {| word := 64; next := 0 |})] ∧
  64 ∈ tracked [(4096, {| word := 64; next := 0 |})] ∧
  ∃ st1 st2,
    ecpg_realloc 64 32 5 {| ra_new := 128; ra_released := true; ra_fill := zeroed |}
      {| mem := <[64 := zeroed]> (<[4096 := {| word := 64; next := 0 |}]> ∅);
         auto_allocs := 4096; trace := [] |} = Done 128 st1 ∧
    mem st1 !! 64 = None ∧
    ECPGfree_auto_mem st1 = Done tt st2 ∧
    times_freed 64 (trace st2) = 1%nat ∧
    times_freed 128 (trace st2) = 0%nat ∧
    is_Some (mem st2 !! 128).
Proof.
  assert (Hwf : wf {| mem := <[64 := zeroed]> (<[4096 := {| word := 64; next := 0 |}]> ∅);
                      auto_allocs := 4096; trace := [] |}
                   [(4096, {| word := 64; next := 0 |})]).
  { split; [concrete | constructor |]. constructor; [notin_list | constructor]. }
  assert (Hp : 64 ∈ tracked [(4096, {| word := 64; next := 0 |})])
    by (apply list_elem_of_In; vm_compute; auto).
  split; [exact Hwf |]. split; [exact Hp |].
  destruct (realloc_moved_pointer_stays_tracked _ _ 64 32 5
              {| ra_new := 128; ra_released := true; ra_fill := zeroed |} Hwf Hp)
    as (st1 & st2 & H1 & H2 & _ & H3 & H4 & _ & H5 & H6);
    [discriminate | reflexivity | notin_list | notin_list |].
  exists st1, st2. repeat (split; [assumption |]). exact H6.
Defined.

(** ** X14 *)

Lemma wf_same_memory st st' l :
  wf st l -> mem st' = mem st -> auto_allocs st' = auto_allocs st -> wf st' l.
Proof. intros [Hch Htl Hsep] Hm Ha. split; [now rewrite Hm, Ha | assumption ..]. Qed.

Lemma wf_nolist st : auto_allocs st = 0 -> wf st [].
Proof. intros H. split; [exact H | constructor | constructor]. Qed.

(** X14: well-formedness is kept by every call that returns.  From a
    well-formed state, with [calloc] answering [NULL] or a block that is
    not live, and registrations that succeed registering an aligned pointer
    apart from the nodes, the state after the call is well-formed again: the
    slot heads a chain that ends, only its head may carry the flag, and no
    tracked pointer is one of its nodes. *)
Theorem every_call_keeps_the_list_well_formed st l c v st' :
  wf st l -> calloc_ok st c ->
  (registers c -> aligned (reg_ptr c) ∧ apart l (reg_node c) (reg_ptr c)) ->
  exec c st = Done v st' ->
  ∃ l', wf st' l'.
Proof.
  intros Hwf Hok Hreg Hex. pose proof (wf_chain _ _ Hwf) as Hch.
  destruct c as [size lineno q am | ptr lineno am | | am |];
    cbn [calloc_ok exec registers reg_ptr reg_node] in Hok, Hex, Hreg;
    apply bind_Done in Hex as (r & st1 & Hex & Hret); injection Hret as _ ->.
  - destruct Hok as (Hfq & Ham & Hne).
    destruct (Z.eq_dec q 0) as [-> | Hq0].
    { rewrite ecpg_auto_alloc_null in Hex. injection Hex as _ <-.
      exists l. now apply (wf_same_memory st). }
    destruct Hfq as [-> | Hfq]; [congruence |].
    destruct (Z.eq_dec am 0) as [-> | Ham0].
    + rewrite ecpg_auto_alloc_no_node in Hex by assumption. injection Hex as _ <-.
      exists l. apply (wf_same_memory st); [assumption | | reflexivity].
      cbn [mem]. now apply delete_insert_id.
    + destruct (Hreg (conj Hq0 Ham0)) as (Hal & Hap).
      pose proof Hap as (Ha & _ & Hp). apply not_elem_of_cons in Hp as [_ Hp].
      rewrite (ecpg_auto_alloc_push _ _ _ _ _ l) in Hex by assumption.
      injection Hex as _ <-. exists (push am q l).
      exact (wf_push (with_mem (<[q := zeroed]> (mem st)) st) l am q
               (wf_calloc _ _ _ Hwf Hp) Ham0 Hal Hap).
  - destruct (Z.eq_dec am 0) as [-> | Ham0].
    + rewrite ecpg_add_mem_null in Hex. injection Hex as _ <-.
      exists l. now apply (wf_same_memory st).
    + destruct (Hreg Ham0) as (Hal & Hap). pose proof Hap as (Ha & _).
      rewrite (ecpg_add_mem_push _ _ _ _ l) in Hex by assumption.
      injection Hex as _ <-. exists (push am ptr l). now apply wf_push.
  - apply ECPGfree_auto_mem_empties in Hex. exists []. now apply wf_nolist.
  - destruct (classic_nonempty l am) as [Hgo | [-> ->]].
    + rewrite (ECPGdisable_spec _ _ l) in Hex by assumption. injection Hex as _ <-.
      exists (disabled am l). now apply wf_disabled.
    + cbn [chain] in Hch. rewrite ECPGdisable_null_fault in Hex by assumption. discriminate.
  - destruct (head_flag l) eqn:Hflag.
    + rewrite (ecpg_clear_auto_mem_suppressed _ l) in Hex by assumption.
      injection Hex as _ <-. exists l. now apply (wf_same_memory st).
    + rewrite (ecpg_clear_auto_mem_releases _ l) in Hex by assumption.
      injection Hex as _ <-. exists []. now apply wf_nolist.
Qed.

Lemma every_call_keeps_the_list_well_formed_witness :
  wf init [] ∧ calloc_ok init (Call_auto_alloc 8 1 64 4096) ∧
  (aligned 64 ∧ apart [] 4096 64) ∧
  exec (Call_auto_alloc 8 1 64 4096) init
    = Done (Ptr 64)
        {| mem := <[4096 := {| word := 64; next := 0 |}]> (<[64 := zeroed]> ∅);
           auto_allocs := 4096; trace := [] |} ∧
  ∃ l', wf {| mem := <[4096 := {| word := 64; next := 0 |}]> (<[64 := zeroed]> ∅);
              auto_allocs := 4096; trace := [] |} l'.
Proof.
  assert (Hok : calloc_ok init (Call_auto_alloc 8 1 64 4096)).
  { split; [now right |]. split; [now right | discriminate]. }
  assert (Hreg : aligned 64 ∧ apart [] 4096 64).
  { split; [reflexivity |]. split; [apply not_elem_of_nil |].
    split; [apply not_elem_of_nil | notin_list]. }
  assert (Hex : exec (Call_auto_alloc 8 1 64 4096) init
                = Done (Ptr 64)
                    {| mem := <[4096 := {| word := 64; next := 0 |}]> (<[64 := zeroed]> ∅);
                       auto_allocs := 4096; trace := [] |})
    by (vm_compute; reflexivity).
  split; [exact wf_init |]. split; [exact Hok |]. split; [exact Hreg |].
  split; [exact Hex |].
  exact (every_call_keeps_the_list_well_formed init [] _ _ _ wf_init Hok (fun _ => Hreg) Hex).
Defined.

(** ** X15 *)

(** X15: the end of a thread frees nothing.  The thread library has set the
    key to [NULL] when it calls [auto_mem_destructor], the function discards
    its argument, and [ECPGfree_auto_mem] finds no list: whatever the list
    was, no call to [free] is made and no block is released; the nodes and
    the tracked blocks stay in memory with nothing left that points to the
    head. *)
Theorem thread_exit_frees_nothing st :
  ∃ st',
    thread_exit st = Done tt st' ∧
    auto_allocs st' = 0 ∧
    mem st' = mem st ∧
    trace st' = trace st.
Proof.
  unfold thread_exit, auto_mem_destructor. msimpl.
  destruct (auto_allocs st =? 0) eqn:E.
  - apply Z.eqb_eq in E. exists st. now repeat split.
  - eexists. split; [apply ECPGfree_auto_mem_nolist; reflexivity |]. now repeat split.
Qed.

Lemma thread_exit_frees_nothing_witness :
  ∃ st',
    thread_exit
      {| mem := <[64 := zeroed]> (<[4096 := {| word := 64; next := 0 |}]> ∅);
         auto_allocs := 4096; trace := [] |} = Done tt st' ∧
    auto_allocs st' = 0 ∧
    mem st' !! 64 = Some zeroed ∧
    mem st' !! 4096 = Some {| word := 64; next := 0 |} ∧
    trace st' = [].
Proof.
  destruct (thread_exit_frees_nothing
              {| mem := <[64 := zeroed]> (<[4096 := {| word := 64; next := 0 |}]> ∅);
                 auto_allocs := 4096; trace := [] |})
    as (st' & H1 & H2 & H3 & H4).
  exists st'. split; [exact H1 |]. split; [exact H2 |].
  rewrite H3, H4. cbn [mem trace].
  split; [vm_compute; reflexivity |]. split; [vm_compute; reflexivity | reflexivity].
Defined.
